(** * pythonominatim: the Location model, the request model and the
    post-processing helpers of [NominatimSearch]

    A shallow embedding of [pythonominatim/model/location.py] and
    [pythonominatim/model/nominatim_search.py].

    - Python [float] is IEEE 754 binary64: it is Rocq's primitive [float],
      with the same arithmetic and the same comparisons ([nan] compares
      false with everything).
    - A call that may raise returns a [result]: [Ok v] or [Raise e].
    - [geopy.distance.geodesic], the [float] builtin and the HTTP session
      are not code of this package: they are parameters of the sections
      that use them. *)

From Stdlib Require Import Ascii PrimFloat SpecFloat FloatOps FloatAxioms.
From stdpp Require Import gmap strings list sorting.

#[local] Set Warnings "-inexact-float".

(** ** Exceptions and results *)

Inductive exn : Type :=
  | ValueError (msg : string)
  | IndexError
  | TypeError (msg : string)
  | ValidationError (errors : list (string * string))
  | ClientResponseError (status : Z) (message : string)
  | ClientError (msg : string).

Inductive result (A : Type) : Type :=
  | Ok (a : A)
  | Raise (e : exn).
Arguments Ok {A} a.
Arguments Raise {A} e.

#[global] Instance result_ret : MRet result := fun A a => Ok a.
#[global] Instance result_bind : MBind result := fun A B f r =>
  match r with
  | Ok a => f a
  | Raise e => Raise e
  end.

Definition is_ok {A} (r : result A) : bool :=
  match r with Ok _ => true | Raise _ => false end.

(** [xs[i]] for a non-negative index. *)
Definition getitem {A} (xs : list A) (i : nat) : result A :=
  match xs !! i with
  | Some x => Ok x
  | None => Raise IndexError
  end.

(** ** location.py *)

Record Location : Type := mkLocation {
  place_id : Z;
  osm_type : string;
  osm_id : Z;
  lat : float;
  lon : float;
  display_name : string;
  address : option (gmap string string);
  boundingbox : option (list float);
  class_ : option string;
  type_ : option string;
  importance : option float;
  icon : option string
}.

(** [Location.area]. [if self.boundingbox:] is false for [None] and for the
    empty list; the subscripts are evaluated left to right. *)
Definition area (self : Location) : result float :=
  match boundingbox self with
  | Some ((_ :: _) as bb) =>
      b1 ← getitem bb 1;
      b0 ← getitem bb 0;
      b2 ← getitem bb 2;
      b3 ← getitem bb 3;
      Ok ((b1 - b0) * (b2 - b3))%float
  | _ => Raise (ValueError "Boundingbox not found")
  end.

(** What the specification asks of [area] on [south, north, west, east]. *)
Definition area_spec (south north west east : float) : float :=
  ((north - south) * (east - west))%float.

Section Geometry.

(** [geodesic(p, q).meters] of geopy: it raises for a latitude outside
    [-90, 90], otherwise it returns a distance. *)
Variable geodesic_meters : float * float → float * float → result float.

(** [Location.distance_to]. *)
Definition distance_to (self other : Location) : result float :=
  geodesic_meters (lat self, lon self) (lat other, lon other).

(** [all(loc.distance_to(r) >= min_distance for r in reduced_locations)]:
    the generator is consumed left to right and [all] stops at the first
    false element. *)
Fixpoint all_far (loc : Location) (min_distance : float)
    (reduced_locations : list Location) : result bool :=
  match reduced_locations with
  | [] => Ok true
  | r :: rs =>
      d ← distance_to loc r;
      if PrimFloat.leb min_distance d
      then all_far loc min_distance rs
      else Ok false
  end.

(** The [for loc in locations[1:]] loop, with [reduced_locations] as the
    loop state. *)
Fixpoint reduce_loop (min_distance : float)
    (reduced_locations rest : list Location) : result (list Location) :=
  match rest with
  | [] => Ok reduced_locations
  | loc :: rest' =>
      keep ← all_far loc min_distance reduced_locations;
      reduce_loop min_distance
        (if keep : bool then reduced_locations ++ [loc] else reduced_locations)
        rest'
  end.

(** [NominatimSearch.reduce_locations]. *)
Definition reduce_locations (locations : list Location)
    (min_distance : float) : result (list Location) :=
  match locations with
  | [] => Ok []
  | first :: rest => reduce_loop min_distance [first] rest
  end.

(** [loc] is at least [min_distance] away from [r], as the loop tests it:
    the call [loc.distance_to(r)] returns and the comparison holds. *)
Definition far (min_distance : float) (loc r : Location) : Prop :=
  ∃ d, distance_to loc r = Ok d ∧ PrimFloat.leb min_distance d = true.

(** Every location of the list passed the test against all the locations
    before it. *)
Inductive separated (min_distance : float) : list Location → Prop :=
  | separated_nil : separated min_distance []
  | separated_snoc kept loc :
      separated min_distance kept →
      all_far loc min_distance kept = Ok true →
      separated min_distance (kept ++ [loc]).

End Geometry.

(** ** The [sorted] builtin

    [sorted(xs, key=k, reverse=r)] computes the key of every element once,
    orders the elements with [<] on the keys only, keeps elements with equal
    keys in their input order and, with [reverse=True], does so as if the
    list were reversed before and after the sort. The interpreter's sort is
    modelled by a stable insertion sort: each new element is compared with
    the sorted run from its right end, [pivot < run[j]], as the interpreter
    does on short lists. A comparison that raises aborts the sort. *)

Section Sorted.

Context {A K : Type}.
Variable lt : K → K → result bool.

(** The sorted run is held right to left: its head is its largest item. *)
Fixpoint insert_run (pivot : K * A) (run : list (K * A)) : result (list (K * A)) :=
  match run with
  | [] => Ok [pivot]
  | y :: ys =>
      b ← lt (fst pivot) (fst y);
      if b : bool
      then (r ← insert_run pivot ys; Ok (y :: r))
      else Ok (pivot :: run)
  end.

Fixpoint sort_run (run todo : list (K * A)) : result (list (K * A)) :=
  match todo with
  | [] => Ok run
  | pivot :: todo' => r ← insert_run pivot run; sort_run r todo'
  end.

Definition sorted (key : A → K) (reverse : bool) (xs : list A) : result (list A) :=
  let keyed := map (fun x => (key x, x)) xs in
  run ← sort_run [] (if reverse then rev keyed else keyed);
  let ascending := rev run in
  Ok (map snd (if reverse then rev ascending else ascending)).

End Sorted.

(** [a < b] on the keys of [sort_by_importance], which are [None] or a
    float: [None] supports no ordering. *)
Definition type_name (k : option float) : string :=
  match k with
  | None => "NoneType"
  | Some _ => "float"
  end.

Definition key_lt (a b : option float) : result bool :=
  match a, b with
  | Some x, Some y => Ok (PrimFloat.ltb x y)
  | _, _ =>
      Raise (TypeError
        (String.append "'<' not supported between instances of '"
          (String.append (type_name a)
            (String.append "' and '" (String.append (type_name b) "'")))))
  end.

(** [NominatimSearch.sort_by_importance]. *)
Definition sort_by_importance (locations : list Location) : result (list Location) :=
  sorted key_lt importance true locations.

(** ** nominatim_search.py: [SearchParams] *)

(** The declared fields, in the order of the class body. *)
Inductive field : Type :=
  | f_q | f_amenity | f_street | f_city | f_county | f_state | f_country
  | f_postalcode
  | f_format | f_json_callback
  | f_addressdetails | f_extratags | f_namedetails
  | f_limit | f_countrycodes | f_layer | f_featureType | f_exclude_place_ids
  | f_viewbox | f_bounded
  | f_polygon_geojson | f_polygon_kml | f_polygon_svg | f_polygon_text
  | f_polygon_threshold
  | f_dedupe | f_debug.

#[global] Instance field_eq_dec : EqDecision field.
Proof. solve_decision. Defined.

Definition all_fields : list field :=
  [ f_q; f_amenity; f_street; f_city; f_county; f_state; f_country;
    f_postalcode; f_format; f_json_callback; f_addressdetails; f_extratags;
    f_namedetails; f_limit; f_countrycodes; f_layer; f_featureType;
    f_exclude_place_ids; f_viewbox; f_bounded; f_polygon_geojson;
    f_polygon_kml; f_polygon_svg; f_polygon_text; f_polygon_threshold;
    f_dedupe; f_debug ].

Definition field_name (f : field) : string :=
  match f with
  | f_q => "q" | f_amenity => "amenity" | f_street => "street"
  | f_city => "city" | f_county => "county" | f_state => "state"
  | f_country => "country" | f_postalcode => "postalcode"
  | f_format => "format" | f_json_callback => "json_callback"
  | f_addressdetails => "addressdetails" | f_extratags => "extratags"
  | f_namedetails => "namedetails"
  | f_limit => "limit" | f_countrycodes => "countrycodes"
  | f_layer => "layer" | f_featureType => "featureType"
  | f_exclude_place_ids => "exclude_place_ids" | f_viewbox => "viewbox"
  | f_bounded => "bounded"
  | f_polygon_geojson => "polygon_geojson" | f_polygon_kml => "polygon_kml"
  | f_polygon_svg => "polygon_svg" | f_polygon_text => "polygon_text"
  | f_polygon_threshold => "polygon_threshold"
  | f_dedupe => "dedupe" | f_debug => "debug"
  end.

(** The annotations of the fields: [Optional[str]], [str], [int], [float]. *)
Inductive ftype : Type := TOptStr | TStr | TInt | TFloat.

Definition denote (t : ftype) : Type :=
  match t with
  | TOptStr => option string
  | TStr => string
  | TInt => Z
  | TFloat => float
  end.

Definition field_type (f : field) : ftype :=
  match f with
  | f_format => TStr
  | f_addressdetails | f_extratags | f_namedetails | f_limit | f_bounded
  | f_polygon_geojson | f_polygon_kml | f_polygon_svg | f_polygon_text
  | f_dedupe | f_debug => TInt
  | f_polygon_threshold => TFloat
  | _ => TOptStr
  end.

Definition field_default (f : field) : denote (field_type f) :=
  match f as g return denote (field_type g) with
  | f_format => "jsonv2"
  | f_addressdetails | f_extratags | f_namedetails | f_bounded
  | f_polygon_geojson | f_polygon_kml | f_polygon_svg | f_polygon_text
  | f_debug => 0%Z
  | f_limit => 10%Z
  | f_dedupe => 1%Z
  | f_polygon_threshold => 0%float
  | _ => None
  end.

(** A value as it appears in a dumped mapping. *)
Inductive pyval : Type :=
  | PNone
  | PStr (s : string)
  | PInt (z : Z)
  | PFloat (x : float).

Definition to_pyval (t : ftype) : denote t → pyval :=
  match t with
  | TOptStr => fun v => match v with Some s => PStr s | None => PNone end
  | TStr => PStr
  | TInt => PInt
  | TFloat => PFloat
  end.

Definition is_none (v : pyval) : bool :=
  match v with PNone => true | _ => false end.

(** [value.split(",")]. *)
Fixpoint split_on (sep : Ascii.ascii) (s : string) : list string :=
  match s with
  | EmptyString => [EmptyString]
  | String c s' =>
      if Ascii.eqb c sep then EmptyString :: split_on sep s'
      else match split_on sep s' with
           | tok :: toks => String c tok :: toks
           | [] => [String c EmptyString]
           end
  end.

Definition allowed_formats : list string :=
  ["xml"; "json"; "jsonv2"; "geojson"; "geocodejson"].

(** [SearchParams.validate_format]. *)
Definition validate_format (value : string) : result string :=
  if bool_decide (value ∈ allowed_formats) then Ok value
  else Raise (ValueError
    "Invalid format. Choose from: ['xml', 'json', 'jsonv2', 'geojson', 'geocodejson']").

(** [SearchParams.validate_limit]. *)
Definition validate_limit (value : Z) : result Z :=
  if negb ((1 <=? value)%Z && (value <=? 40)%Z)
  then Raise (ValueError "Limit must be between 1 and 40.")
  else Ok value.

(** [SearchParams.validate_zero_one]. *)
Definition validate_zero_one (value : Z) : result Z :=
  if bool_decide (value ∈ [0%Z; 1%Z]) then Ok value
  else Raise (ValueError "Value must be 0 or 1.").

Section Construction.

(** The [float] builtin on a string: [None] stands for its [ValueError]. *)
Variable py_float : string → option float.

(** [SearchParams.validate_viewbox]. [if value:] is false for [None] and for
    the empty string. *)
Definition validate_viewbox (value : option string) : result (option string) :=
  match value with
  | Some ((String _ _) as s) =>
      let coords := split_on "," s in
      if negb (length coords =? 4)
      then Raise (ValueError "Viewbox must have four comma-separated values.")
      else
        match mapM py_float coords with
        | Some _ => Ok value
        | None =>
            Raise (ValueError "Viewbox coordinates must be floating-point numbers.")
        end
  | _ => Ok value
  end.

(** The [field_validator] decorators: which validator runs on which field. *)
Definition field_validator (f : field) :
    denote (field_type f) → result (denote (field_type f)) :=
  match f as g return denote (field_type g) → result (denote (field_type g)) with
  | f_format => validate_format
  | f_limit => validate_limit
  | f_addressdetails | f_extratags | f_namedetails | f_bounded | f_dedupe
  | f_debug => validate_zero_one
  | f_viewbox => validate_viewbox
  | _ => Ok
  end.

(** The keyword arguments of [SearchParams(...)], each of the type of its
    field: [None] is an argument that is not given. *)
Definition kwargs : Type := ∀ f : field, option (denote (field_type f)).

(** An instance: a value for every field, and the set of the fields that
    were given to the constructor ([model_fields_set]). *)
Record SearchParams : Type := mkSearchParams {
  value_of : ∀ f : field, denote (field_type f);
  fields_set : field → bool
}.

(** The validator of a field runs on a given argument only; a field that is
    not given takes its default, unvalidated. *)
Definition validate_field (kw : kwargs) (f : field) : result (denote (field_type f)) :=
  match kw f with
  | Some v => field_validator f v
  | None => Ok (field_default f)
  end.

(** The entry of a field in the [ValidationError]: the name of the field
    with the message of the [ValueError] that its validator raised. *)
Definition field_error (kw : kwargs) (f : field) : option (string * string) :=
  match validate_field kw f with
  | Ok _ => None
  | Raise (ValueError msg) => Some (field_name f, msg)
  | Raise _ => Some (field_name f, "error")
  end.

(** The constructor of [SearchParams] on keyword arguments: every field is
    validated, and the errors of all fields are raised together in one
    [ValidationError]. *)
Definition SearchParams_init (kw : kwargs) : result SearchParams :=
  match omap (field_error kw) all_fields with
  | [] =>
      Ok {| value_of := fun f =>
              match validate_field kw f with
              | Ok v => v
              | Raise _ => field_default f
              end;
            fields_set := fun f =>
              match kw f with Some _ => true | None => false end |}
  | errors => Raise (ValidationError errors)
  end.

End Construction.

(** [model_dump(exclude_none=..., exclude_unset=...)]: the fields in their
    declared order, without the fields that were not given when
    [exclude_unset], without the [None] values when [exclude_none]. *)
Definition model_dump (exclude_none exclude_unset : bool) (p : SearchParams) :
    gmap string pyval :=
  foldl (fun d f =>
           let v := to_pyval (field_type f) (value_of p f) in
           if exclude_unset && negb (fields_set p f) then d
           else if exclude_none && is_none v then d
           else <[field_name f := v]> d)
        ∅ all_fields.

(** The two statements of [search] that build the query mapping. *)
Definition params_dict_of (params : SearchParams) : gmap string pyval :=
  let params_dict := model_dump true true params in
  <["format" := PStr "jsonv2"]> params_dict.

(** The entry of a field in the dump: its value, or nothing when the field
    is excluded. *)
Definition dump_entry (exclude_none exclude_unset : bool) (p : SearchParams)
    (f : field) : option pyval :=
  let v := to_pyval (field_type f) (value_of p f) in
  if exclude_unset && negb (fields_set p f) then None
  else if exclude_none && is_none v then None
  else Some v.

(** A value that is neither [None] nor the empty string. *)
Definition nonempty_value (v : pyval) : bool :=
  match v with
  | PNone | PStr EmptyString => false
  | _ => true
  end.

(** Keyword arguments: none, and one more. *)
Definition no_kwargs : kwargs := fun _ => None.

Definition with_kw (f : field) (v : denote (field_type f)) (kw : kwargs) : kwargs :=
  fun g =>
    match decide (f = g) with
    | left e => Some (eq_rect f (fun h => denote (field_type h)) v g e)
    | right _ => kw g
    end.

(** ** Construction of a [Location] *)

(** The keyword arguments of the constructor of [Location], each of the
    type of its field; [None] is an argument that is not given. *)
Record LocationArgs : Type := mkLocationArgs {
  kw_place_id : option Z;
  kw_osm_type : option string;
  kw_osm_id : option Z;
  kw_lat : option float;
  kw_lon : option float;
  kw_display_name : option string;
  kw_address : option (option (gmap string string));
  kw_boundingbox : option (option (list float));
  kw_class_ : option (option string);
  kw_type_ : option (option string);
  kw_importance : option (option float);
  kw_icon : option (option string)
}.

Definition missing {A} (name : string) (arg : option A) : list (string * string) :=
  match arg with
  | Some _ => []
  | None => [(name, "Field required")]
  end.

(** The class declares no validator: the six fields without a default are
    required, and every given value is stored as it is. *)
Definition Location_init (kw : LocationArgs) : result Location :=
  match kw_place_id kw, kw_osm_type kw, kw_osm_id kw,
        kw_lat kw, kw_lon kw, kw_display_name kw with
  | Some pid, Some otype, Some oid, Some la, Some lo, Some name =>
      Ok {| place_id := pid; osm_type := otype; osm_id := oid;
            lat := la; lon := lo; display_name := name;
            address := default None (kw_address kw);
            boundingbox := default None (kw_boundingbox kw);
            class_ := default None (kw_class_ kw);
            type_ := default None (kw_type_ kw);
            importance := default None (kw_importance kw);
            icon := default None (kw_icon kw) |}
  | _, _, _, _, _, _ =>
      Raise (ValidationError
        (missing "place_id" (kw_place_id kw) ++
         missing "osm_type" (kw_osm_type kw) ++
         missing "osm_id" (kw_osm_id kw) ++
         missing "lat" (kw_lat kw) ++
         missing "lon" (kw_lon kw) ++
         missing "display_name" (kw_display_name kw)))
  end.

(** The six required arguments are given. *)
Definition required_given (kw : LocationArgs) : Prop :=
  is_Some (kw_place_id kw) ∧ is_Some (kw_osm_type kw) ∧
  is_Some (kw_osm_id kw) ∧ is_Some (kw_lat kw) ∧ is_Some (kw_lon kw) ∧
  is_Some (kw_display_name kw).

(** ** nominatim_search.py: [NominatimSearch] *)

Record NominatimSearch : Type := mkNominatimSearch {
  base_url : string;
  user_agent : option string;
  email : option string
}.

(** What [session.get] is called with. *)
Record request : Type := mkRequest {
  req_url : string;
  req_params : gmap string pyval;
  req_headers : gmap string string
}.

(** What [search] reads of a response: the status, the reason, and what
    [await response.json()] gives, the decoded items as the keyword
    arguments of [Location] or the exception of the decoder. *)
Record response : Type := mkResponse {
  status : Z;
  reason : string;
  json : result (list LocationArgs)
}.

(** The argument of [search]: a string, a dict, an instance, or anything
    else. *)
Inductive query : Type :=
  | QStr (s : string)
  | QDict (kw : kwargs)
  | QParams (p : SearchParams)
  | QOther.

Section Search.

Variable py_float : string → option float.
Variable self : NominatimSearch.

(** [search] up to the call of [session.get]. *)
Definition search_request (params : query) : result request :=
  params ←
    match params with
    | QStr s => SearchParams_init py_float (with_kw f_q (Some s) no_kwargs)
    | QDict kw => SearchParams_init py_float kw
    | QParams p => Ok p
    | QOther =>
        Raise (TypeError "Invalid parameters. Must be str, dict, or SearchParams.")
    end;
  let headers : gmap string string :=
    match user_agent self with
    | Some ((String _ _) as ua) => {["User-Agent" := ua]}
    | _ => ∅
    end in
  Ok {| req_url := base_url self;
        req_params := params_dict_of params;
        req_headers := headers |}.

(** [search] on a response with status 200: the body of the [if]. *)
Definition search_parse (resp : response) : result (list Location) :=
  data ← json resp;
  mapM Location_init data.

(** [search], with the answer of the session to a request as a function. *)
Definition search (session_get : request → result response) (params : query) :
    result (list Location) :=
  req ← search_request params;
  resp ← session_get req;
  if (status resp =? 200)%Z then search_parse resp
  else Raise (ClientResponseError (status resp) (reason resp)).

(** *** The coroutine of [search] and [asyncio.gather]

    Calling [self.search(query)] creates a coroutine and runs nothing. The
    event loop resumes a coroutine up to its next suspension: the call of
    [session.get], then [response.json()], then the end. *)
Inductive coroutine : Type :=
  | Created (params : query)
  | AwaitGet (req : request)
  | AwaitJson (resp : response)
  | Finished (outcome : result (list Location)).

Definition resume (session_get : request → result response) (c : coroutine) :
    coroutine :=
  match c with
  | Created params =>
      match search_request params with
      | Ok req => AwaitGet req
      | Raise e => Finished (Raise e)
      end
  | AwaitGet req =>
      match session_get req with
      | Ok resp =>
          if (status resp =? 200)%Z then AwaitJson resp
          else Finished (Raise (ClientResponseError (status resp) (reason resp)))
      | Raise e => Finished (Raise e)
      end
  | AwaitJson resp => Finished (search_parse resp)
  | Finished outcome => Finished outcome
  end.

(** What a coroutine returns or raises once it is resumed to its end. *)
Definition finish (session_get : request → result response) (c : coroutine) :
    result (list Location) :=
  match c with
  | Created params => search session_get params
  | AwaitGet req =>
      resp ← session_get req;
      if (status resp =? 200)%Z then search_parse resp
      else Raise (ClientResponseError (status resp) (reason resp))
  | AwaitJson resp => search_parse resp
  | Finished outcome => outcome
  end.

(** The suspensions that a coroutine has before it, at most. *)
Definition steps_left (c : coroutine) : nat :=
  match c with
  | Created _ => 3
  | AwaitGet _ => 2
  | AwaitJson _ => 1
  | Finished _ => 0
  end.

(** Every call of [search] opens a session of its own: the network answers
    the task at position [i] by [network i]. *)
Variable network : nat → request → result response.

(** The tasks are the coroutines of the queries, one for each query and in
    the same order, each somewhere on its way. *)
Definition tasks_of (queries : list query) (tasks : list coroutine) : Prop :=
  length tasks = length queries ∧
  ∀ i q c, queries !! i = Some q → tasks !! i = Some c →
    finish (network i) c = search (network i) q.

(** The event loop resumes the task at position [i]. *)
Definition run_task (i : nat) (tasks : list coroutine) : list coroutine :=
  match tasks !! i with
  | Some c => <[i := resume (network i) c]> tasks
  | None => tasks
  end.

Definition outcome_of (c : coroutine) : option (result (list Location)) :=
  match c with
  | Finished outcome => Some outcome
  | _ => None
  end.

Definition raised (c : coroutine) : option exn :=
  match c with
  | Finished (Raise e) => Some e
  | _ => None
  end.

(** The future of [gather], looked at between two steps of the loop. With
    [return_exceptions=True] it is done when every task has finished, and
    holds the outcome of each task, result or exception, in the order of
    the awaitables. With [return_exceptions=False] the first exception of a
    task is the exception of [gather]. [None]: not done yet. *)
Definition gather_done (return_exceptions : bool) (tasks : list coroutine) :
    option (result (list (result (list Location)))) :=
  if return_exceptions then Ok <$> mapM outcome_of tasks
  else
    match omap raised tasks with
    | e :: _ => Some (Raise e)
    | [] => Ok <$> mapM outcome_of tasks
    end.

(** [await asyncio.gather(...)] under a schedule, the positions of the
    tasks that the loop resumes, in order. [None]: the schedule ends before
    [gather] is done. *)
Fixpoint run_gather (return_exceptions : bool) (schedule : list nat)
    (tasks : list coroutine) : option (result (list (result (list Location)))) :=
  match gather_done return_exceptions tasks with
  | Some r => Some r
  | None =>
      match schedule with
      | [] => None
      | i :: schedule' => run_gather return_exceptions schedule' (run_task i tasks)
      end
  end.

(** [NominatimSearch.search_multiple]. *)
Definition search_multiple (schedule : list nat) (queries : list query) :
    option (result (list (result (list Location)))) :=
  let tasks := map Created queries in
  run_gather true schedule tasks.

(** The same call with [return_exceptions=False], for comparison. *)
Definition search_multiple_raising (schedule : list nat) (queries : list query) :
    option (result (list (result (list Location)))) :=
  run_gather false schedule (map Created queries).

(** A schedule that resumes every one of [n] tasks three times. *)
Definition round_robin (n : nat) : list nat :=
  seq 0 n ++ seq 0 n ++ seq 0 n.

End Search.

(** ** Which keyword arguments the validators accept *)

(** The six fields that [validate_zero_one] is registered on, and the
    integer fields, the polygon flags, on which no validator is registered. *)
Definition zero_one_fields : list field :=
  [f_addressdetails; f_extratags; f_namedetails; f_bounded; f_dedupe; f_debug].

Definition polygon_flags : list field :=
  [f_polygon_geojson; f_polygon_kml; f_polygon_svg; f_polygon_text].

(** A given argument as a value, whatever its field. *)
Definition given (kw : kwargs) (f : field) : option pyval :=
  to_pyval (field_type f) <$> kw f.

(** The arguments that the four validators let through. *)
Definition valid_kwargs (py_float : string → option float) (kw : kwargs) : Prop :=
  (∀ v, given kw f_format = Some (PStr v) → v ∈ allowed_formats) ∧
  (∀ v, given kw f_limit = Some (PInt v) → (1 ≤ v ≤ 40)%Z) ∧
  (∀ f v, f ∈ zero_one_fields → given kw f = Some (PInt v) →
     v = 0%Z ∨ v = 1%Z) ∧
  (∀ s, given kw f_viewbox = Some (PStr s) →
     s = EmptyString ∨
     length (split_on "," s) = 4 ∧
     Forall (fun c => is_Some (py_float c)) (split_on "," s)).

(** ** nominatim_search.py: [NominatimSearch.sort_by_distance] *)

Section SortByDistance.

Variable geodesic_meters : float * float → float * float → result float.

(** [a < b] on floats, which never raises. *)
Definition float_lt (a b : float) : result bool := Ok (PrimFloat.ltb a b).

(** [NominatimSearch.sort_by_distance]. The keys, [x.distance_to(origin)],
    are computed for all the locations, in their order, before the first
    comparison. *)
Definition sort_by_distance (locations : list Location) (origin : Location) :
    result (list Location) :=
  keys ← mapM (fun x => distance_to geodesic_meters x origin) locations;
  keyed ← sorted float_lt fst false (zip keys locations);
  Ok (map snd keyed).

End SortByDistance.

(** ** Sample data, on which the examples run *)

Module Samples.

(** A stand-in for the geodesic: like geopy it raises for a latitude out of
    range; it measures the distance along the axes of a grid. *)
Definition grid_meters (p q : float * float) : result float :=
  if PrimFloat.ltb 90 (abs (fst p)) || PrimFloat.ltb 90 (abs (fst q))
  then Raise (ValueError "Latitude must be in the [-90; 90] range.")
  else Ok (abs (fst p - fst q) + abs (snd p - snd q))%float.

Definition place (id : Z) (la lo : float) (bb : option (list float))
    (imp : option float) : Location :=
  {| place_id := id; osm_type := "node"; osm_id := id; lat := la; lon := lo;
     display_name := "place"; address := None; boundingbox := bb;
     class_ := None; type_ := None; importance := imp; icon := None |}.

(** Three places on a line: A and B 50 apart, B and C 150, A and C 200. *)
Definition loc_A : Location := place 1 0 0 None (Some 0.3%float).
Definition loc_B : Location := place 2 0 50 None (Some 0.9%float).
Definition loc_C : Location := place 3 0 200 None None.
Definition loc_D : Location := place 4 0 260 None (Some 0.5%float).

(** A place whose latitude geopy refuses. *)
Definition loc_bad : Location := place 5 95 0 None None.

Definition boxed (bb : list float) : Location := place 6 11 22 (Some bb) None.

(** A parser of plain decimal literals, [sign] digits [. digits], standing
    in for the [float] builtin. *)
Definition digit_value (c : Ascii.ascii) : option float :=
  match c with
  | "0"%char => Some 0%float | "1"%char => Some 1%float
  | "2"%char => Some 2%float | "3"%char => Some 3%float
  | "4"%char => Some 4%float | "5"%char => Some 5%float
  | "6"%char => Some 6%float | "7"%char => Some 7%float
  | "8"%char => Some 8%float | "9"%char => Some 9%float
  | _ => None
  end.

(** The digits of [s] read after [acc]; [scale] is multiplied by ten for
    each digit. *)
Fixpoint read_digits (s : string) (acc scale : float) : option (float * float) :=
  match s with
  | EmptyString => Some (acc, scale)
  | String c s' =>
      d ← digit_value c;
      read_digits s' (acc * 10 + d)%float (scale * 10)%float
  end.

Definition unsigned_literal (s : string) : option float :=
  match split_on "." s with
  | [(String _ _) as whole] => fst <$> read_digits whole 0 1
  | [(String _ _) as whole; (String _ _) as frac] =>
      w ← read_digits whole 0 1;
      f ← read_digits frac 0 1;
      Some (fst w + fst f / snd f)%float
  | _ => None
  end.

Definition decimal_float (s : string) : option float :=
  match s with
  | String "-"%char s' => opp <$> unsigned_literal s'
  | String "+"%char s' => unsigned_literal s'
  | _ => unsigned_literal s
  end.

(** Keyword arguments with a bounding box of any length. *)
Definition args_with_box (bb : list float) : LocationArgs :=
  {| kw_place_id := Some 7%Z; kw_osm_type := Some "node";
     kw_osm_id := Some 7%Z; kw_lat := Some 1%float; kw_lon := Some 2%float;
     kw_display_name := Some "place";
     kw_address := None; kw_boundingbox := Some (Some bb);
     kw_class_ := None; kw_type_ := None; kw_importance := None;
     kw_icon := None |}.

Definition client : NominatimSearch :=
  {| base_url := "https://nominatim.openstreetmap.org/search";
     user_agent := Some "tests"; email := None |}.

Definition item (id : Z) : LocationArgs :=
  {| kw_place_id := Some id; kw_osm_type := Some "way"; kw_osm_id := Some id;
     kw_lat := Some 52.5%float; kw_lon := Some 13.5%float;
     kw_display_name := Some "Berlin";
     kw_address := None; kw_boundingbox := None; kw_class_ := None;
     kw_type_ := None; kw_importance := None; kw_icon := None |}.

(** A network that answers the task at position [i] with one item. *)
Definition one_hit (i : nat) (req : request) : result response :=
  Ok {| status := 200; reason := "OK"; json := Ok [item (Z.of_nat i)] |}.

(** Three queries, the second of which fails validation. *)
Definition three_queries : list query :=
  [ QStr "Berlin";
    QDict (with_kw f_limit 0%Z (with_kw f_q (Some "Paris") no_kwargs));
    QStr "Rome" ].

End Samples.

(** * Properties *)

(** ** Results *)

Lemma bind_Ok {A B} (f : A → result B) (a : A) : (Ok a ≫= f) = f a.
Proof. reflexivity. Qed.

Lemma bind_Raise {A B} (f : A → result B) (e : exn) : (Raise e ≫= f) = Raise e.
Proof. reflexivity. Qed.

Lemma bind_is_Ok {A B} (f : A → result B) (r : result A) (b : B) :
  (r ≫= f) = Ok b → ∃ a, r = Ok a ∧ f a = Ok b.
Proof. destruct r as [a|e]; simpl; [eauto | discriminate]. Qed.

(** ** [reduce_locations] *)

Section ReduceFacts.

Variable geodesic_meters : float * float → float * float → result float.

#[local] Abbreviation all_far := (all_far geodesic_meters).
#[local] Abbreviation reduce_loop := (reduce_loop geodesic_meters).
#[local] Abbreviation reduce_locations := (reduce_locations geodesic_meters).
#[local] Abbreviation far := (far geodesic_meters).
#[local] Abbreviation separated := (separated geodesic_meters).

Lemma all_far_true loc d kept :
  all_far loc d kept = Ok true ↔ Forall (far d loc) kept.
Proof.
  induction kept as [|r rs IH]; simpl.
  - split; [constructor | reflexivity].
  - split.
    + intros H. apply bind_is_Ok in H as (x & Hx & H).
      destruct (PrimFloat.leb d x) eqn:Hle; [|discriminate].
      constructor; [exists x; auto | by apply IH].
    + intros H. inversion H as [|? ? (x & Hx & Hle) Hrs]; subst.
      rewrite Hx. simpl. rewrite Hle. by apply IH.
Qed.

Lemma all_far_total loc d kept :
  (∀ p q, is_ok (geodesic_meters p q) = true) →
  ∃ keep, all_far loc d kept = Ok keep.
Proof.
  intros Htotal. induction kept as [|r rs IH]; simpl; [eauto|].
  unfold distance_to. specialize (Htotal (lat loc, lon loc) (lat r, lon r)).
  destruct (geodesic_meters _ _) as [x|]; [simpl | discriminate].
  destruct (PrimFloat.leb d x); eauto.
Qed.

Lemma reduce_loop_app d kept rest1 rest2 :
  reduce_loop d kept (rest1 ++ rest2) =
  reduce_loop d kept rest1 ≫= fun mid => reduce_loop d mid rest2.
Proof.
  revert kept. induction rest1 as [|loc rest1 IH]; intros kept; simpl; [done|].
  destruct (all_far loc d kept) as [keep|e]; simpl; [apply IH | done].
Qed.

Lemma reduce_loop_extends d kept rest out :
  reduce_loop d kept rest = Ok out →
  ∃ added, out = kept ++ added ∧ added `sublist_of` rest.
Proof.
  revert kept. induction rest as [|loc rest IH]; intros kept; simpl.
  - intros [= <-]. exists []. by rewrite app_nil_r.
  - intros H. apply bind_is_Ok in H as (keep & _ & H).
    apply IH in H as (added & -> & Hsub). destruct keep.
    + exists (loc :: added). rewrite <- app_assoc. split; [done|].
      by apply sublist_skip.
    + exists added. split; [done|]. by apply sublist_cons.
Qed.

Lemma reduce_loop_total d kept rest :
  (∀ p q, is_ok (geodesic_meters p q) = true) →
  ∃ out, reduce_loop d kept rest = Ok out.
Proof.
  intros Htotal. revert kept.
  induction rest as [|loc rest IH]; intros kept; simpl; [eauto|].
  destruct (all_far_total loc d kept Htotal) as [keep ->]. simpl. apply IH.
Qed.

Lemma reduce_loop_separated d kept rest out :
  separated d kept → reduce_loop d kept rest = Ok out → separated d out.
Proof.
  revert kept. induction rest as [|loc rest IH]; intros kept Hsep; simpl.
  - by intros [= <-].
  - intros H. apply bind_is_Ok in H as (keep & Hkeep & H).
    destruct keep; (eapply IH; [|exact H]); [by constructor | done].
Qed.

Lemma separated_singleton d loc : separated d [loc].
Proof. apply (separated_snoc _ d [] loc); [constructor | reflexivity]. Qed.

Lemma separated_app_l d kept more : separated d (kept ++ more) → separated d kept.
Proof.
  induction more as [|loc more IH] using rev_ind.
  - by rewrite app_nil_r.
  - rewrite app_assoc. intros H. inversion H as [Hnil | kept' loc' Hk Hfar Heq].
    + by destruct (kept ++ more).
    + apply app_inj_tail in Heq as [-> ->]. by apply IH.
Qed.

Lemma separated_last d kept loc :
  separated d (kept ++ [loc]) → all_far loc d kept = Ok true.
Proof.
  intros H. inversion H as [Hnil | kept' loc' Hk Hfar Heq].
  - by destruct kept.
  - by apply app_inj_tail in Heq as [-> ->].
Qed.

(** On a separated list the loop keeps everything. *)
Lemma reduce_loop_keeps d kept rest :
  separated d (kept ++ rest) → reduce_loop d kept rest = Ok (kept ++ rest).
Proof.
  revert kept. induction rest as [|loc rest IH]; intros kept Hsep; simpl.
  - by rewrite app_nil_r.
  - replace (kept ++ loc :: rest) with ((kept ++ [loc]) ++ rest) in *
      by (by rewrite <- app_assoc).
    pose proof (separated_app_l _ _ _ Hsep) as Hpre.
    rewrite (separated_last _ _ _ Hpre). simpl. by apply IH.
Qed.

Lemma reduce_locations_separated xs d out :
  reduce_locations xs d = Ok out → separated d out.
Proof.
  destruct xs as [|first rest]; simpl.
  - intros [= <-]. constructor.
  - apply reduce_loop_separated, separated_singleton.
Qed.

Lemma reduce_locations_fixed d out :
  separated d out → reduce_locations out d = Ok out.
Proof.
  destruct out as [|first rest]; [done|]. intros Hsep. simpl.
  by apply (reduce_loop_keeps d [first] rest).
Qed.

End ReduceFacts.

Section ReduceClaims.

Variable geodesic_meters : float * float → float * float → result float.

#[local] Abbreviation distance_to := (distance_to geodesic_meters).
#[local] Abbreviation all_far := (all_far geodesic_meters).
#[local] Abbreviation reduce_loop := (reduce_loop geodesic_meters).
#[local] Abbreviation reduce_locations := (reduce_locations geodesic_meters).
#[local] Abbreviation far := (far geodesic_meters).
#[local] Abbreviation separated := (separated geodesic_meters).

Lemma reduce_locations_snoc first before loc d :
  reduce_locations (first :: before ++ [loc]) d =
  reduce_locations (first :: before) d ≫= fun kept =>
  all_far loc d kept ≫= fun keep =>
  Ok (if keep : bool then kept ++ [loc] else kept).
Proof.
  simpl. rewrite reduce_loop_app.
  destruct (reduce_loop d [first] before) as [kept|e]; simpl; [|done].
  by destruct (all_far loc d kept).
Qed.

Lemma reduce_locations_prefix first before after d out :
  reduce_locations (first :: before ++ after) d = Ok out →
  ∃ kept added,
    reduce_locations (first :: before) d = Ok kept ∧
    out = kept ++ added ∧ added `sublist_of` after.
Proof.
  simpl. rewrite reduce_loop_app. intros H.
  apply bind_is_Ok in H as (kept & Hkept & H).
  apply reduce_loop_extends in H as (added & -> & Hsub). eauto.
Qed.

Lemma separated_lookup d out i j a b :
  separated d out → i < j → out !! i = Some a → out !! j = Some b →
  far d b a.
Proof.
  intros Hsep. revert i j a b.
  induction Hsep as [|kept loc Hsep IH Hfar]; intros i j a b Hij Ha Hb.
  - by rewrite lookup_nil in Ha.
  - destruct (decide (j < length kept)) as [Hj|Hj].
    + rewrite lookup_app_l in Ha by lia. rewrite lookup_app_l in Hb by lia.
      by apply (IH i j).
    + assert (j = length kept) as ->.
      { apply lookup_lt_Some in Hb. rewrite length_app in Hb. simpl in Hb. lia. }
      rewrite lookup_app_l in Ha by lia.
      rewrite list_lookup_middle in Hb by done. injection Hb as <-.
      apply all_far_true in Hfar. rewrite Forall_forall in Hfar.
      apply Hfar. by eapply list_elem_of_lookup_2.
Qed.

(** C1. [reduce_locations] is a greedy single-pass filter. The empty list
    gives the empty list for every [min_distance]; a list of one location
    gives that list; the first location of a list is kept; a location that
    follows is kept if and only if [distance_to] from it to every location
    kept before it is [>= min_distance], and is discarded otherwise; what
    was decided on a prefix of the input is never changed by what follows
    it: the result on the whole input is the result on the prefix followed
    by locations that come after the prefix. When [distance_to] raises
    nowhere, the call returns. *)
Theorem reduce_locations_greedy :
  (∀ d, reduce_locations [] d = Ok []) ∧
  (∀ loc d, reduce_locations [loc] d = Ok [loc]) ∧
  (∀ first rest d out,
     reduce_locations (first :: rest) d = Ok out → ∃ tail, out = first :: tail) ∧
  (∀ first before loc d,
     reduce_locations (first :: before ++ [loc]) d =
     reduce_locations (first :: before) d ≫= fun kept =>
     all_far loc d kept ≫= fun keep =>
     Ok (if keep : bool then kept ++ [loc] else kept)) ∧
  (∀ first before loc d out,
     reduce_locations (first :: before ++ [loc]) d = Ok out →
     ∃ kept, reduce_locations (first :: before) d = Ok kept ∧
       (Forall (far d loc) kept ∧ out = kept ++ [loc] ∨
        ¬ Forall (far d loc) kept ∧ out = kept)) ∧
  (∀ first before after d out,
     reduce_locations (first :: before ++ after) d = Ok out →
     ∃ kept added,
       reduce_locations (first :: before) d = Ok kept ∧
       out = kept ++ added ∧ added `sublist_of` after) ∧
  ((∀ p q, is_ok (geodesic_meters p q) = true) →
   ∀ xs d, ∃ out, reduce_locations xs d = Ok out).
Proof.
  split_and!.
  - done.
  - done.
  - intros first rest d out H. simpl in H.
    apply reduce_loop_extends in H as (added & -> & _). by exists added.
  - apply reduce_locations_snoc.
  - intros first before loc d out. rewrite reduce_locations_snoc. intros H.
    apply bind_is_Ok in H as (kept & Hkept & H).
    apply bind_is_Ok in H as (keep & Hkeep & [= <-]).
    exists kept. split; [done|]. destruct keep.
    + left. split; [by apply all_far_true | done].
    + right. split; [|done]. intros Hall%all_far_true. congruence.
  - apply reduce_locations_prefix.
  - intros Htotal [|first rest] d; simpl; [eauto|].
    by apply reduce_loop_total.
Qed.

(** C9. The list that [reduce_locations] returns is a subsequence of its
    input, in the input's order, and any two of its locations are at least
    [min_distance] apart: the test of the loop, [distance_to] from the later
    one to the earlier one [>= min_distance], holds for every pair of
    positions, and so does the test in the other direction wherever
    [distance_to] gives the same in both directions. *)
Theorem reduce_locations_pairwise_separated xs d out :
  reduce_locations xs d = Ok out →
  out `sublist_of` xs ∧
  ∀ i j a b, i < j → out !! i = Some a → out !! j = Some b →
    far d b a ∧ (distance_to a b = distance_to b a → far d a b).
Proof.
  intros H. split.
  - destruct xs as [|first rest]; simpl in H.
    + by injection H as <-.
    + apply reduce_loop_extends in H as (added & -> & Hsub).
      by apply sublist_skip.
  - intros i j a b Hij Ha Hb.
    pose proof (separated_lookup d out i j a b
                  (reduce_locations_separated _ _ _ _ H) Hij Ha Hb) as Hfar.
    split; [done|]. intros Hsym. destruct Hfar as (x & Hx & Hle).
    exists x. by rewrite Hsym.
Qed.

(** C10. [reduce_locations] is idempotent: reducing the reduced list again,
    with the same [min_distance], gives the reduced list; and where the
    first call raises, so does the composition. *)
Theorem reduce_locations_idempotent xs d :
  (reduce_locations xs d ≫= fun out => reduce_locations out d) =
    reduce_locations xs d ∧
  ∀ out, reduce_locations xs d = Ok out → reduce_locations out d = Ok out.
Proof.
  assert (∀ out, reduce_locations xs d = Ok out →
                 reduce_locations out d = Ok out) as Hfix.
  { intros out H. by eapply reduce_locations_fixed, reduce_locations_separated. }
  split; [|done].
  destruct (reduce_locations xs d) as [out|e] eqn:H; simpl; [|done]. by apply Hfix.
Qed.

End ReduceClaims.

Lemma reduce_locations_greedy_witness :
  ∃ kept,
    reduce_locations Samples.grid_meters [Samples.loc_A; Samples.loc_B] 100
      = Ok kept ∧
    (Forall (far Samples.grid_meters 100 Samples.loc_C) kept ∧
       [Samples.loc_A; Samples.loc_C] = kept ++ [Samples.loc_C] ∨
     ¬ Forall (far Samples.grid_meters 100 Samples.loc_C) kept ∧
       [Samples.loc_A; Samples.loc_C] = kept).
Proof.
  destruct (reduce_locations_greedy Samples.grid_meters)
    as (_ & _ & _ & _ & Hstep & _).
  apply (Hstep Samples.loc_A [Samples.loc_B] Samples.loc_C 100%float).
  vm_compute. reflexivity.
Defined.

Lemma reduce_locations_pairwise_separated_witness :
  [Samples.loc_A; Samples.loc_C]
    `sublist_of` [Samples.loc_A; Samples.loc_B; Samples.loc_C] ∧
  far Samples.grid_meters 100 Samples.loc_C Samples.loc_A ∧
  far Samples.grid_meters 100 Samples.loc_A Samples.loc_C.
Proof.
  destruct (reduce_locations_pairwise_separated Samples.grid_meters
              [Samples.loc_A; Samples.loc_B; Samples.loc_C] 100%float
              [Samples.loc_A; Samples.loc_C]) as [Hsub Hpair].
  { vm_compute. reflexivity. }
  split; [exact Hsub|].
  destruct (Hpair 0 1 Samples.loc_A Samples.loc_C) as [Hfar Hsym].
  { lia. }
  { reflexivity. }
  { reflexivity. }
  split; [exact Hfar|]. apply Hsym. vm_compute. reflexivity.
Defined.

Lemma reduce_locations_idempotent_witness :
  reduce_locations Samples.grid_meters [Samples.loc_A; Samples.loc_C] 100
    = Ok [Samples.loc_A; Samples.loc_C].
Proof.
  apply (reduce_locations_idempotent Samples.grid_meters
           [Samples.loc_A; Samples.loc_B; Samples.loc_C] 100%float).
  vm_compute. reflexivity.
Defined.

(** ** [Location.area] *)

Lemma area_of_box loc south north west east :
  boundingbox loc = Some [south; north; west; east] →
  area loc = Ok ((north - south) * (west - east))%float.
Proof. unfold area. by intros ->. Qed.

Lemma area_defined loc bb :
  boundingbox loc = Some bb → 4 ≤ length bb → ∃ x, area loc = Ok x.
Proof.
  unfold area. intros -> Hlen.
  destruct bb as [|b0 [|b1 [|b2 [|b3 bb]]]]; simpl in Hlen; try lia.
  simpl. eauto.
Qed.

(** C2. On the bounding box [10, 12, 20, 25] the method returns [-10], where
    [(north - south) * (east - west)] is [10]: the second factor of the
    method is [boundingbox[2] - boundingbox[3]], west minus east. *)
Theorem area_box_10_12_20_25 :
  area (Samples.boxed [10; 12; 20; 25]%float) = Ok (-10)%float ∧
  area_spec 10 12 20 25 = 10%float.
Proof. split; vm_compute; reflexivity. Qed.

(** C8. [area] raises the [ValueError] of the missing bounding box when the
    location has none, and returns when a bounding box of exactly 4 elements
    is there. *)
Theorem area_raises_only_without_box loc :
  (boundingbox loc = None →
   area loc = Raise (ValueError "Boundingbox not found")) ∧
  (∀ bb, boundingbox loc = Some bb → length bb = 4 → ∃ x, area loc = Ok x).
Proof.
  split.
  - unfold area. by intros ->.
  - intros bb Hbb Hlen. apply (area_defined loc bb Hbb). lia.
Qed.

Lemma area_raises_only_without_box_witness :
  area Samples.loc_A = Raise (ValueError "Boundingbox not found") ∧
  ∃ x, area (Samples.boxed [10; 12; 20; 25]%float) = Ok x.
Proof.
  split.
  - apply (area_raises_only_without_box Samples.loc_A). reflexivity.
  - apply (area_raises_only_without_box (Samples.boxed [10; 12; 20; 25]%float))
      with (bb := [10; 12; 20; 25]%float); reflexivity.
Defined.

(** ** Construction of a [Location] *)

(** C7, as the specification states it, fails: a [Location] is constructed
    with a bounding box of two elements. *)
Lemma Location_box_of_two_elements :
  ¬ (∀ kw loc bb,
       Location_init kw = Ok loc → boundingbox loc = Some bb → length bb = 4).
Proof.
  intros H.
  specialize (H (Samples.args_with_box [1; 2]%float)
                (Samples.place 7 1 2 (Some [1; 2]%float) None)
                [1; 2]%float eq_refl eq_refl).
  discriminate H.
Qed.

(** C7, amended. The constructor of [Location] does not look at the bounding
    box: for every list of floats, of any length, a construction that gives
    the required fields and that list succeeds and stores the list as it
    is; a construction without a bounding box stores [None]. *)
Theorem Location_init_stores_box kw :
  required_given kw →
  ∃ loc, Location_init kw = Ok loc ∧
    (∀ bb, kw_boundingbox kw = Some (Some bb) → boundingbox loc = Some bb) ∧
    (kw_boundingbox kw = None ∨ kw_boundingbox kw = Some None →
     boundingbox loc = None).
Proof.
  intros ([pid Hpid] & [otype Hotype] & [oid Hoid] & [la Hla] & [lo Hlo] &
          [name Hname]).
  unfold Location_init. rewrite Hpid, Hotype, Hoid, Hla, Hlo, Hname.
  eexists. split; [reflexivity|]. simpl. split.
  - by intros bb ->.
  - by intros [-> | ->].
Qed.

Lemma Location_init_stores_box_witness :
  ∃ loc,
    Location_init (Samples.args_with_box [1; 2; 3; 4; 5]%float) = Ok loc ∧
    boundingbox loc = Some [1; 2; 3; 4; 5]%float.
Proof.
  destruct (Location_init_stores_box
              (Samples.args_with_box [1; 2; 3; 4; 5]%float))
    as (loc & Hinit & Hbox & _).
  { unfold required_given. simpl. repeat split; eexists; reflexivity. }
  exists loc. split; [exact Hinit|]. apply Hbox. reflexivity.
Defined.

(** ** [sort_by_importance] *)

Lemma key_lt_None_l b : ∃ msg, key_lt None b = Raise (TypeError msg).
Proof. destruct b; simpl; eauto. Qed.

Lemma key_lt_None_r a : ∃ msg, key_lt a None = Raise (TypeError msg).
Proof. destruct a; simpl; eauto. Qed.

Section SortFacts.

Context {A : Type}.
Implicit Types (pivot : option float * A) (run todo : list (option float * A)).

#[local] Abbreviation scored := (fun pivot => is_Some (fst pivot)).

(** The first comparison of an insertion is with the head of the run. *)
Lemma insert_run_unscored_pivot pivot run :
  fst pivot = None → run ≠ [] →
  ∃ msg, insert_run key_lt pivot run = Raise (TypeError msg).
Proof.
  intros Hp Hrun. destruct run as [|y ys]; [done|]. simpl. rewrite Hp.
  destruct (key_lt_None_l (fst y)) as [msg ->]. eauto.
Qed.

Lemma insert_run_unscored_head pivot y ys :
  fst y = None →
  ∃ msg, insert_run key_lt pivot (y :: ys) = Raise (TypeError msg).
Proof.
  intros Hy. simpl. rewrite Hy.
  destruct (key_lt_None_r (fst pivot)) as [msg ->]. eauto.
Qed.

Lemma insert_run_scored pivot run :
  scored pivot → Forall scored run →
  ∃ run', insert_run key_lt pivot run = Ok run' ∧
          Forall scored run' ∧ run' ≠ [].
Proof.
  intros [x Hx] Hrun. induction Hrun as [|y ys [z Hz] Hys IH]; simpl.
  - eexists. split; [done|]. split; [|done]. constructor; [by exists x | done].
  - rewrite Hx, Hz. simpl. destruct (PrimFloat.ltb x z).
    + destruct IH as (run' & -> & Hrun' & _). simpl.
      eexists. split; [done|]. split; [|done]. constructor; [by exists z | done].
    + eexists. split; [done|]. split; [|done].
      repeat constructor; [by exists x | by exists z | done].
Qed.

Lemma sort_run_raises run todo :
  (∃ y ys, run = y :: ys ∧ fst y = None) ∧ todo ≠ [] ∨
  Forall scored run ∧ run ≠ [] ∧ Exists (fun p => fst p = None) todo →
  ∃ msg, sort_run key_lt run todo = Raise (TypeError msg).
Proof.
  revert run. induction todo as [|pivot todo IH]; intros run.
  - intros [[_ ?] | (_ & _ & Hex)]; [done | by inversion Hex].
  - intros [[(y & ys & -> & Hy) _] | (Hrun & Hne & Hex)]; cbn [sort_run].
    + destruct (insert_run_unscored_head pivot y ys Hy) as [msg ->]. eauto.
    + destruct (fst pivot) as [x|] eqn:Hp.
      * destruct (insert_run_scored pivot run) as (run' & -> & Hrun' & Hne');
          [by exists x | done |].
        simpl. apply IH. right. split_and!; [done..|].
        inversion Hex as [? ? Hhd | ]; subst; [congruence | done].
      * destruct (insert_run_unscored_pivot pivot run Hp Hne) as [msg ->]. eauto.
Qed.

Lemma sort_run_start_raises todo :
  2 ≤ length todo → Exists (fun p => fst p = None) todo →
  ∃ msg, sort_run key_lt [] todo = Raise (TypeError msg).
Proof.
  destruct todo as [|pivot [|next todo]]; simpl; try lia. intros _ Hex.
  change (∃ msg, sort_run key_lt [pivot] (next :: todo) = Raise (TypeError msg)).
  apply sort_run_raises. destruct (fst pivot) as [x|] eqn:Hp.
  - right. split_and!; [|done|].
    + constructor; [by exists x | done].
    + inversion Hex; subst; [congruence | done].
  - left. split; [by exists pivot, [] | done].
Qed.

End SortFacts.

(** Whenever a list of two locations or more has a location without
    importance, the sort raises. *)
Lemma sort_by_importance_raises locations :
  2 ≤ length locations →
  (∃ loc, loc ∈ locations ∧ importance loc = None) →
  ∃ msg, sort_by_importance locations = Raise (TypeError msg).
Proof.
  intros Hlen (loc & Hin & Hnone). unfold sort_by_importance, sorted.
  destruct (sort_run_start_raises
              (rev (map (fun x => (importance x, x)) locations))) as [msg ->].
  - by rewrite length_rev, length_map.
  - apply Exists_exists. exists (importance loc, loc). split; [|done].
    apply list_elem_of_In, in_rev. rewrite rev_involutive.
    apply list_elem_of_In, list_elem_of_fmap. by exists loc.
  - by exists msg.
Qed.

(** The sort on scored locations: descending, and stable. *)
Example sort_by_importance_scored :
  sort_by_importance [Samples.loc_A; Samples.loc_B; Samples.loc_D; Samples.loc_A]
  = Ok [Samples.loc_B; Samples.loc_D; Samples.loc_A; Samples.loc_A].
Proof. vm_compute. reflexivity. Qed.

(** C3. On locations of importances [0.3, 0.9, None, 0.5] the call does not
    return the locations sorted with the [None] entry last: the comparison
    of [None] with a float raises a [TypeError]. *)
Theorem sort_by_importance_None_raises :
  map importance [Samples.loc_A; Samples.loc_B; Samples.loc_C; Samples.loc_D]
    = [Some 0.3; Some 0.9; None; Some 0.5]%float ∧
  sort_by_importance [Samples.loc_A; Samples.loc_B; Samples.loc_C; Samples.loc_D]
    = Raise (TypeError
        "'<' not supported between instances of 'NoneType' and 'float'").
Proof. split; vm_compute; reflexivity. Qed.

(** ** [SearchParams]: the dumped mapping *)

Lemma field_name_inj f g : field_name f = field_name g → f = g.
Proof. destruct f, g; simpl; intros H; first [reflexivity | discriminate H]. Qed.

Lemma all_fields_complete f : f ∈ all_fields.
Proof. unfold all_fields. destruct f; set_solver. Qed.

Lemma all_fields_NoDup : NoDup all_fields.
Proof. apply (bool_decide_unpack _). vm_compute. exact I. Qed.

Section DumpFacts.

Variables (exclude_none exclude_unset : bool) (p : SearchParams).

#[local] Abbreviation step :=
  (fun (d : gmap string pyval) f =>
     let v := to_pyval (field_type f) (value_of p f) in
     if exclude_unset && negb (fields_set p f) then d
     else if exclude_none && is_none v then d
     else <[field_name f := v]> d).

Lemma dump_step_other d f k :
  field_name f ≠ k → step d f !! k = d !! k.
Proof.
  intros Hne. cbv beta zeta.
  destruct (exclude_unset && negb (fields_set p f)); [done|].
  destruct (exclude_none && is_none _); [done|]. by rewrite lookup_insert_ne.
Qed.

Lemma dump_step_same d f :
  d !! field_name f = None →
  step d f !! field_name f = dump_entry exclude_none exclude_unset p f.
Proof.
  intros Hd. unfold dump_entry. cbv beta zeta.
  destruct (exclude_unset && negb (fields_set p f)); [done|].
  destruct (exclude_none && is_none _); [done|]. by rewrite lookup_insert_eq.
Qed.

Lemma dump_fold_other fs d k :
  (∀ f, f ∈ fs → field_name f ≠ k) → foldl step d fs !! k = d !! k.
Proof.
  revert d. induction fs as [|g fs IH]; intros d Hk; [done|].
  cbn [foldl]. rewrite IH by (intros f Hf; apply Hk; by right).
  apply dump_step_other, Hk. by left.
Qed.

Lemma dump_fold_same fs d f :
  NoDup fs → f ∈ fs → d !! field_name f = None →
  foldl step d fs !! field_name f = dump_entry exclude_none exclude_unset p f.
Proof.
  revert d. induction fs as [|g fs IH]; intros d Hnd Hf Hd.
  - by apply elem_of_nil in Hf.
  - apply NoDup_cons in Hnd as [Hg Hnd]. cbn [foldl].
    destruct (decide (f = g)) as [->|Hfg].
    + rewrite dump_fold_other.
      * by apply dump_step_same.
      * intros h Hh Heq. apply field_name_inj in Heq. by subst h.
    + apply IH; [done | by apply elem_of_cons in Hf as [?|?] |].
      rewrite dump_step_other; [done|]. intros Heq. by apply field_name_inj in Heq.
Qed.

Lemma model_dump_lookup f :
  model_dump exclude_none exclude_unset p !! field_name f =
  dump_entry exclude_none exclude_unset p f.
Proof.
  unfold model_dump. rewrite (dump_fold_same all_fields ∅ f); [done | ..].
  - apply all_fields_NoDup.
  - apply all_fields_complete.
  - apply lookup_empty.
Qed.

Lemma model_dump_lookup_other k :
  (∀ f, field_name f ≠ k) →
  model_dump exclude_none exclude_unset p !! k = None.
Proof.
  intros Hk. unfold model_dump. rewrite (dump_fold_other all_fields ∅ k).
  - apply lookup_empty.
  - intros f _. apply Hk.
Qed.

End DumpFacts.

Section ConstructionFacts.

Variable py_float : string → option float.

#[local] Abbreviation validate_viewbox := (validate_viewbox py_float).
#[local] Abbreviation field_validator := (field_validator py_float).
#[local] Abbreviation validate_field := (validate_field py_float).
#[local] Abbreviation field_error := (field_error py_float).
#[local] Abbreviation SearchParams_init := (SearchParams_init py_float).

(** A validator returns the value that it was given, or raises. *)
Lemma validate_viewbox_id v v' : validate_viewbox v = Ok v' → v' = v.
Proof.
  unfold validate_viewbox. destruct v as [[|c s]|]; try congruence.
  destruct (negb _); [discriminate|]. destruct (mapM _ _); congruence.
Qed.

Lemma field_validator_id f v v' : field_validator f v = Ok v' → v' = v.
Proof.
  destruct f; simpl in *;
    try (intros [= <-]; reflexivity);
    try apply validate_viewbox_id;
    unfold validate_format, validate_limit, validate_zero_one;
    try (destruct (bool_decide _)); try (destruct (negb _)); congruence.
Qed.

Lemma omap_nil_inv {X Y} (g : X → option Y) (l : list X) x :
  omap g l = [] → x ∈ l → g x = None.
Proof.
  induction l as [|y l IH]; simpl; intros Hnil Hx.
  - by apply elem_of_nil in Hx.
  - destruct (g y) eqn:Hy; [discriminate|].
    apply elem_of_cons in Hx as [->|Hx]; [done | by apply IH].
Qed.

Lemma field_error_None kw f :
  field_error kw f = None → ∃ v, validate_field kw f = Ok v.
Proof.
  unfold field_error. destruct (validate_field kw f) as [v|[]]; eauto; discriminate.
Qed.

(** What a successful construction stores. *)
Lemma SearchParams_init_Ok kw p f :
  SearchParams_init kw = Ok p →
  fields_set p f = (match kw f with Some _ => true | None => false end) ∧
  value_of p f = (match kw f with Some v => v | None => field_default f end).
Proof.
  unfold SearchParams_init.
  destruct (omap (field_error kw) all_fields) eqn:Herr; [|discriminate].
  intros [= <-]. simpl. split; [done|].
  pose proof (omap_nil_inv _ _ f Herr (all_fields_complete f)) as Hf.
  apply field_error_None in Hf as [v Hv]. rewrite Hv.
  unfold validate_field in Hv. destruct (kw f) as [w|].
  - by apply field_validator_id in Hv.
  - by injection Hv.
Qed.

End ConstructionFacts.

(** The mapping that [search] sends, for any instance. *)
Lemma params_dict_of_lookup p :
  params_dict_of p !! "format" = Some (PStr "jsonv2") ∧
  (∀ f, f ≠ f_format →
     params_dict_of p !! field_name f = dump_entry true true p f) ∧
  (∀ k, (∀ f, field_name f ≠ k) → params_dict_of p !! k = None).
Proof.
  unfold params_dict_of. split_and!.
  - apply lookup_insert_eq.
  - intros f Hf. rewrite lookup_insert_ne.
    + apply model_dump_lookup.
    + intros Heq. apply Hf. by apply field_name_inj.
  - intros k Hk. rewrite lookup_insert_ne by apply (Hk f_format).
    by apply model_dump_lookup_other.
Qed.

(** C5, as the specification states it, fails: [SearchParams(q=...)] with
    the empty string has the empty [q] in its mapping. *)
Lemma params_dict_keeps_empty_string :
  ¬ (∀ kw p k v,
       SearchParams_init Samples.decimal_float kw = Ok p →
       k ≠ "format" → params_dict_of p !! k = Some v →
       (∃ f, field_name f = k ∧ is_Some (kw f)) ∧ nonempty_value v = true).
Proof.
  intros H.
  pose (kw := with_kw f_q (Some EmptyString) no_kwargs).
  destruct (SearchParams_init Samples.decimal_float kw) as [p|e] eqn:Hinit;
    [|vm_compute in Hinit; discriminate].
  destruct (H kw p "q" (PStr EmptyString) Hinit) as [_ Hne]; [done| |done].
  destruct (params_dict_of_lookup p) as (_ & Hset & _).
  change "q" with (field_name f_q). rewrite (Hset f_q) by done.
  unfold dump_entry.
  destruct (SearchParams_init_Ok _ kw p f_q Hinit) as [-> ->]. reflexivity.
Qed.

(** C5, amended. The mapping that [search] sends has the key [format] with
    the value [jsonv2], whatever the instance holds, and besides it exactly
    the fields that were given to the constructor with a value other than
    [None], each with its value: a field given as the empty string is
    there; a field that was not given, or given as [None], is not; no other
    key is there. *)
Theorem params_dict_of_contents py_float kw p :
  SearchParams_init py_float kw = Ok p →
  params_dict_of p !! "format" = Some (PStr "jsonv2") ∧
  (∀ f, f ≠ f_format →
     params_dict_of p !! field_name f =
       match kw f with
       | Some v =>
           if is_none (to_pyval (field_type f) v) then None
           else Some (to_pyval (field_type f) v)
       | None => None
       end) ∧
  (∀ k, (∀ f, field_name f ≠ k) → params_dict_of p !! k = None).
Proof.
  intros Hinit. destruct (params_dict_of_lookup p) as (Hformat & Hset & Hother).
  split_and!; [done | | done].
  intros f Hf. rewrite Hset by done. unfold dump_entry.
  destruct (SearchParams_init_Ok _ kw p f Hinit) as [-> ->].
  by destruct (kw f).
Qed.

Lemma params_dict_of_contents_witness :
  ∃ p,
    SearchParams_init Samples.decimal_float
      (with_kw f_format "xml" (with_kw f_q (Some "Berlin") no_kwargs)) = Ok p ∧
    params_dict_of p !! "format" = Some (PStr "jsonv2") ∧
    params_dict_of p !! "q" = Some (PStr "Berlin") ∧
    params_dict_of p !! "limit" = None.
Proof.
  pose (kw := with_kw f_format "xml" (with_kw f_q (Some "Berlin") no_kwargs)).
  destruct (SearchParams_init Samples.decimal_float kw) as [p|e] eqn:Hinit;
    [|vm_compute in Hinit; discriminate].
  exists p. split; [exact Hinit|].
  destruct (params_dict_of_contents Samples.decimal_float kw p Hinit)
    as (Hformat & Hset & _).
  split; [exact Hformat|]. split.
  - apply (Hset f_q). discriminate.
  - apply (Hset f_limit). discriminate.
Defined.

(** ** [SearchParams]: the viewbox *)

Section ViewboxFacts.

Variable py_float : string → option float.

#[local] Abbreviation validate_viewbox := (validate_viewbox py_float).
#[local] Abbreviation field_error := (field_error py_float).
#[local] Abbreviation SearchParams_init := (SearchParams_init py_float).
#[local] Abbreviation numeric := (fun c : string => is_Some (py_float c)).

Lemma validate_viewbox_accepts s :
  length (split_on "," s) = 4 ∧ Forall numeric (split_on "," s) ∨
  s = EmptyString →
  validate_viewbox (Some s) = Ok (Some s).
Proof.
  intros [[Hlen Hnum] | ->]; [|done].
  unfold validate_viewbox. destruct s as [|c s]; [done|].
  rewrite Hlen. simpl negb. cbv iota.
  apply mapM_is_Some in Hnum as [xs ->]. done.
Qed.

Lemma validate_viewbox_rejects s :
  s ≠ EmptyString →
  length (split_on "," s) ≠ 4 ∨ ¬ Forall numeric (split_on "," s) →
  ∃ msg, validate_viewbox (Some s) = Raise (ValueError msg).
Proof.
  intros Hs Hbad. unfold validate_viewbox.
  destruct s as [|c s]; [done|].
  destruct (length (split_on "," (String c s)) =? 4) eqn:Hlen; simpl negb; cbv iota.
  - apply Nat.eqb_eq in Hlen. destruct Hbad as [Hbad | Hbad]; [done|].
    destruct (mapM py_float (split_on "," (String c s))) as [xs|] eqn:Hm; [|eauto].
    exfalso. apply Hbad, mapM_is_Some. by exists xs.
  - eauto.
Qed.

Lemma field_error_name kw f e : field_error kw f = Some e → e.1 = field_name f.
Proof.
  unfold field_error.
  destruct (validate_field py_float kw f) as [v|[]]; by intros [= <-].
Qed.

Lemma SearchParams_init_raises kw f e :
  field_error kw f = Some e →
  ∃ errors, SearchParams_init kw = Raise (ValidationError errors) ∧ e ∈ errors.
Proof.
  intros He. unfold SearchParams_init.
  assert (e ∈ omap (field_error kw) all_fields) as Hin.
  { apply list_elem_of_omap. exists f. split; [apply all_fields_complete | done]. }
  destruct (omap (field_error kw) all_fields) as [|e0 errors].
  - by apply elem_of_nil in Hin.
  - by exists (e0 :: errors).
Qed.

Lemma SearchParams_init_errors kw errors e :
  SearchParams_init kw = Raise (ValidationError errors) → e ∈ errors →
  ∃ f, field_error kw f = Some e.
Proof.
  unfold SearchParams_init.
  destruct (omap (field_error kw) all_fields) as [|e0 es] eqn:Herr; [done|].
  intros [= <-] Hin. rewrite <- Herr in Hin.
  apply list_elem_of_omap in Hin as (f & _ & Hf). by exists f.
Qed.

Lemma SearchParams_init_succeeds kw :
  (∀ f, field_error kw f = None) → ∃ p, SearchParams_init kw = Ok p.
Proof.
  intros Hnone. unfold SearchParams_init.
  destruct (omap (field_error kw) all_fields) as [|e0 es] eqn:Herr; [eauto|].
  assert (e0 ∈ omap (field_error kw) all_fields) as Hin by (rewrite Herr; by left).
  apply list_elem_of_omap in Hin as (f & _ & Hf). by rewrite Hnone in Hf.
Qed.

Lemma field_error_viewbox (kw : kwargs) (s : string) :
  kw f_viewbox = Some (Some s) →
  field_error kw f_viewbox =
    match validate_viewbox (Some s) with
    | Ok _ => None
    | Raise (ValueError msg) => Some ("viewbox", msg)
    | Raise _ => Some ("viewbox", "error")
    end.
Proof.
  intros Hkw. unfold field_error, validate_field. by rewrite Hkw.
Qed.

(** C6, amended. For every non-empty viewbox string given to the
    constructor: when the string is not made of exactly 4 comma-separated
    tokens, or a token is not accepted by [float], the construction raises a
    validation error that names the viewbox; when it is made of exactly 4
    tokens that [float] accepts, the viewbox raises no error, and the
    construction succeeds, storing the string, if no other argument raises
    one. The empty string is not validated: it is accepted like a valid
    viewbox. *)
Theorem viewbox_validation (kw : kwargs) (s : string) :
  kw f_viewbox = Some (Some s) →
  (s ≠ EmptyString →
   length (split_on "," s) ≠ 4 ∨ ¬ Forall numeric (split_on "," s) →
   ∃ errors msg,
     SearchParams_init kw = Raise (ValidationError errors) ∧
     ("viewbox", msg) ∈ errors) ∧
  (length (split_on "," s) = 4 ∧ Forall numeric (split_on "," s) ∨
   s = EmptyString →
   field_error kw f_viewbox = None ∧
   (∀ errors msg,
      SearchParams_init kw = Raise (ValidationError errors) →
      ("viewbox", msg) ∉ errors) ∧
   ((∀ f, f ≠ f_viewbox → field_error kw f = None) →
    ∃ p, SearchParams_init kw = Ok p ∧ value_of p f_viewbox = Some s)).
Proof.
  intros Hkw. split.
  - intros Hs Hbad.
    destruct (validate_viewbox_rejects s Hs Hbad) as [msg Hmsg].
    destruct (SearchParams_init_raises kw f_viewbox ("viewbox", msg))
      as (errors & Hinit & Hin).
    { by rewrite (field_error_viewbox kw s Hkw), Hmsg. }
    by exists errors, msg.
  - intros Hgood.
    assert (field_error kw f_viewbox = None) as Hnone.
    { by rewrite (field_error_viewbox kw s Hkw), validate_viewbox_accepts. }
    split_and!; [done | |].
    + intros errors msg Hinit Hin.
      destruct (SearchParams_init_errors kw errors _ Hinit Hin) as [f Hf].
      pose proof (field_error_name kw f _ Hf) as Hname. simpl in Hname.
      assert (f = f_viewbox) as -> by (by apply field_name_inj).
      by rewrite Hnone in Hf.
    + intros Hothers.
      destruct (SearchParams_init_succeeds kw) as [p Hp].
      { intros f. destruct (decide (f = f_viewbox)) as [->|Hf]; auto. }
      exists p. split; [done|].
      destruct (SearchParams_init_Ok _ kw p f_viewbox Hp) as [_ ->].
      by rewrite Hkw.
Qed.

End ViewboxFacts.

(** C6, as the specification states it, fails: the empty string, which is
    not made of 4 tokens, is accepted. *)
Lemma empty_viewbox_accepted :
  ¬ (∀ (py_float : string → option float) (kw : kwargs) (s : string),
       kw f_viewbox = Some (Some s) →
       length (split_on "," s) ≠ 4 ∨
       ¬ Forall (fun c => is_Some (py_float c)) (split_on "," s) →
       is_ok (SearchParams_init py_float kw) = false).
Proof.
  intros H.
  specialize (H Samples.decimal_float
                (with_kw f_viewbox (Some EmptyString) no_kwargs) EmptyString
                eq_refl).
  discriminate H. left. simpl. lia.
Qed.

Lemma viewbox_validation_witness :
  (∃ errors msg,
     SearchParams_init Samples.decimal_float
       (with_kw f_viewbox (Some "1,2,x,4") no_kwargs)
       = Raise (ValidationError errors) ∧
     ("viewbox", msg) ∈ errors) ∧
  (∃ p,
     SearchParams_init Samples.decimal_float
       (with_kw f_viewbox (Some "-1.5,2,3.25,4") no_kwargs) = Ok p ∧
     value_of p f_viewbox = Some "-1.5,2,3.25,4").
Proof.
  split.
  - apply (viewbox_validation Samples.decimal_float
             (with_kw f_viewbox (Some "1,2,x,4") no_kwargs) "1,2,x,4" eq_refl).
    + discriminate.
    + right. intros Hall. apply (bool_decide_pack _) in Hall.
      vm_compute in Hall. exact Hall.
  - apply (viewbox_validation Samples.decimal_float
             (with_kw f_viewbox (Some "-1.5,2,3.25,4") no_kwargs)
             "-1.5,2,3.25,4" eq_refl).
    + left. split; [reflexivity|].
      apply (bool_decide_unpack _). vm_compute. exact I.
    + intros f Hf. destruct f; first [reflexivity | contradiction Hf; reflexivity].
Defined.

(** ** [search_multiple] *)

Section GatherFacts.

Variable py_float : string → option float.
Variable self : NominatimSearch.
Variable network : nat → request → result response.

#[local] Abbreviation search := (search py_float self).
#[local] Abbreviation resume := (resume py_float self).
#[local] Abbreviation finish := (finish py_float self).
#[local] Abbreviation run_task := (run_task py_float self network).
#[local] Abbreviation run_gather := (run_gather py_float self network).
#[local] Abbreviation search_multiple := (search_multiple py_float self network).

Lemma finish_resume get c : finish get (resume get c) = finish get c.
Proof.
  destruct c as [params|req|resp|outcome]; simpl; try done.
  - unfold search. destruct (search_request py_float self params); done.
  - destruct (get req) as [resp|e]; simpl; [|done].
    by destruct (status resp =? 200)%Z.
Qed.

Lemma finish_outcome get c outcome :
  outcome_of c = Some outcome → finish get c = outcome.
Proof. destruct c; simpl; congruence. Qed.

Lemma steps_left_resume get c : steps_left (resume get c) ≤ pred (steps_left c).
Proof.
  destruct c as [params|req|resp|outcome]; simpl; try lia.
  - destruct (search_request py_float self params); simpl; lia.
  - destruct (get req) as [resp|e]; simpl; [|lia].
    destruct (status resp =? 200)%Z; simpl; lia.
Qed.

Lemma steps_left_0 c : steps_left c = 0 → is_Some (outcome_of c).
Proof. destruct c; simpl; try discriminate. eauto. Qed.

#[local] Abbreviation tasks_of := (tasks_of py_float self network).

Lemma tasks_of_Created (queries : list query) :
  tasks_of queries (map Created queries).
Proof.
  split; [apply length_map|]. intros i q c Hq Hc.
  change (map Created queries) with (Created <$> queries) in Hc.
  rewrite list_lookup_fmap, Hq in Hc. by injection Hc as <-.
Qed.

Lemma tasks_of_run_task (queries : list query) tasks i :
  tasks_of queries tasks → tasks_of queries (run_task i tasks).
Proof.
  intros [Hlen Hfin]. unfold run_task.
  destruct (tasks !! i) as [c|] eqn:Hi; [|done].
  split; [by rewrite length_insert|]. intros j q c' Hq Hc'.
  destruct (decide (i = j)) as [<-|Hij].
  - rewrite list_lookup_insert_eq in Hc' by (by eapply lookup_lt_Some).
    injection Hc' as <-. rewrite finish_resume. by eapply Hfin.
  - rewrite list_lookup_insert_ne in Hc' by done. by eapply Hfin.
Qed.

Lemma gather_done_slots (queries : list query) tasks r :
  tasks_of queries tasks → gather_done true tasks = Some r →
  ∃ slots, r = Ok slots ∧ length slots = length queries ∧
    ∀ i q, queries !! i = Some q → slots !! i = Some (search (network i) q).
Proof.
  intros [Hlen Hfin]. unfold gather_done.
  destruct (mapM outcome_of tasks) as [slots|] eqn:Hm; [|done].
  intros [= <-]. apply mapM_Some in Hm. exists slots.
  split; [done|]. split; [by rewrite <- (Forall2_length _ _ _ Hm)|].
  intros i q Hq.
  destruct (tasks !! i) as [c|] eqn:Hc.
  - destruct (Forall2_lookup_l _ _ _ _ _ Hm Hc) as (o & Ho & Hout).
    rewrite Ho. f_equal. rewrite <- (Hfin i q c Hq Hc).
    symmetry. by apply finish_outcome.
  - apply lookup_ge_None in Hc. apply lookup_lt_Some in Hq. lia.
Qed.

Lemma run_gather_slots (queries : list query) schedule tasks r :
  tasks_of queries tasks → run_gather true schedule tasks = Some r →
  ∃ slots, r = Ok slots ∧ length slots = length queries ∧
    ∀ i q, queries !! i = Some q → slots !! i = Some (search (network i) q).
Proof.
  revert tasks. induction schedule as [|i schedule IH]; intros tasks Hinv;
    cbn [run_gather];
    destruct (gather_done true tasks) as [r'|] eqn:Hdone.
  - intros [= <-]. by eapply gather_done_slots.
  - done.
  - intros [= <-]. by eapply gather_done_slots.
  - apply IH. by apply tasks_of_run_task.
Qed.

Lemma gather_done_finished tasks :
  (∀ i c, tasks !! i = Some c → steps_left c = 0) →
  is_Some (gather_done true tasks).
Proof.
  intros Hzero. unfold gather_done. apply fmap_is_Some, mapM_is_Some.
  apply Forall_lookup. intros i c Hc. by eapply steps_left_0, Hzero.
Qed.

Lemma run_gather_returns schedule tasks :
  (∀ i c, tasks !! i = Some c → steps_left c ≤ count_occ Nat.eq_dec schedule i) →
  is_Some (run_gather true schedule tasks).
Proof.
  revert tasks. induction schedule as [|i schedule IH]; intros tasks Hfair;
    cbn [run_gather];
    destruct (gather_done true tasks) as [r|] eqn:Hdone; try by eauto.
  - rewrite <- Hdone. apply gather_done_finished.
    intros i c Hc. specialize (Hfair i c Hc). simpl in Hfair. lia.
  - apply IH. intros j c' Hc'. unfold run_task in Hc'.
    destruct (tasks !! i) as [c|] eqn:Hi.
    + destruct (decide (i = j)) as [<-|Hij].
      * rewrite list_lookup_insert_eq in Hc' by (by eapply lookup_lt_Some).
        injection Hc' as <-. specialize (Hfair i c Hi).
        rewrite count_occ_cons_eq in Hfair by done.
        pose proof (steps_left_resume (network i) c). lia.
      * rewrite list_lookup_insert_ne in Hc' by done.
        specialize (Hfair j c' Hc').
        by rewrite count_occ_cons_neq in Hfair.
    + specialize (Hfair j c' Hc'). destruct (decide (i = j)) as [<-|Hij].
      * congruence.
      * by rewrite count_occ_cons_neq in Hfair.
Qed.

Lemma steps_left_le_3 c : steps_left c ≤ 3.
Proof. destruct c; simpl; lia. Qed.

Lemma round_robin_fair n i : i < n → 3 ≤ count_occ Nat.eq_dec (round_robin n) i.
Proof.
  intros Hi. unfold round_robin. rewrite !count_occ_app.
  assert (0 < count_occ Nat.eq_dec (seq 0 n) i).
  { apply count_occ_In, in_seq. lia. }
  lia.
Qed.

End GatherFacts.

(** With [return_exceptions=False] the failure of the second query would be
    the outcome of the whole call. *)
Example search_multiple_raising_aborts :
  search_multiple_raising Samples.decimal_float Samples.client Samples.one_hit
    (round_robin 3) Samples.three_queries
  = Some (Raise (ValidationError [("limit", "Limit must be between 1 and 40.")])).
Proof. vm_compute. reflexivity. Qed.

(** C4. [search_multiple] returns, under every schedule of the event loop
    that lets it return, one slot for each query, in the order of the
    queries, and the slot of a query holds what [search] on that query
    alone returns or raises: the list of locations, or the exception. A
    query that raises changes no other slot. The call returns under every
    schedule that resumes each task three times, such as the round robin. *)
Theorem search_multiple_aligned py_float self network queries :
  (∀ schedule r,
     search_multiple py_float self network schedule queries = Some r →
     ∃ slots, r = Ok slots ∧ length slots = length queries ∧
       ∀ i q, queries !! i = Some q →
         slots !! i = Some (search py_float self (network i) q)) ∧
  (∀ schedule,
     (∀ i, i < length queries → 3 ≤ count_occ Nat.eq_dec schedule i) →
     is_Some (search_multiple py_float self network schedule queries)) ∧
  is_Some (search_multiple py_float self network
             (round_robin (length queries)) queries).
Proof.
  assert (∀ schedule,
            (∀ i, i < length queries → 3 ≤ count_occ Nat.eq_dec schedule i) →
            is_Some (search_multiple py_float self network schedule queries))
    as Hfair.
  { intros schedule Hsched. apply run_gather_returns. intros i c Hc.
    pose proof (steps_left_le_3 c).
    apply lookup_lt_Some in Hc. rewrite length_map in Hc.
    specialize (Hsched i Hc). lia. }
  split_and!.
  - intros schedule r. apply run_gather_slots, tasks_of_Created.
  - exact Hfair.
  - apply Hfair. intros i Hi. by apply round_robin_fair.
Qed.

Lemma search_multiple_aligned_witness :
  ∃ first third,
    search_multiple Samples.decimal_float Samples.client Samples.one_hit
      [0; 1; 2; 2; 0; 2; 0] Samples.three_queries
    = Some (Ok [ Ok first;
                 Raise (ValidationError
                          [("limit", "Limit must be between 1 and 40.")]);
                 Ok third ]) ∧
    search Samples.decimal_float Samples.client (Samples.one_hit 0)
      (QStr "Berlin") = Ok first ∧
    search Samples.decimal_float Samples.client (Samples.one_hit 2)
      (QStr "Rome") = Ok third.
Proof.
  destruct (search_multiple_aligned Samples.decimal_float Samples.client
              Samples.one_hit Samples.three_queries) as (Hslots & _ & _).
  destruct (Hslots [0; 1; 2; 2; 0; 2; 0]
              (Ok [ search Samples.decimal_float Samples.client
                      (Samples.one_hit 0) (QStr "Berlin");
                    Raise (ValidationError
                             [("limit", "Limit must be between 1 and 40.")]);
                    search Samples.decimal_float Samples.client
                      (Samples.one_hit 2) (QStr "Rome") ]))
    as (slots & Hr & Hlen & Hat).
  { vm_compute. reflexivity. }
  eexists _, _. split; [vm_compute; reflexivity|].
  split; vm_compute; reflexivity.
Defined.

(** * Further properties *)

(** ** [SearchParams]: what the validators accept *)

Section ValidationFacts.

Variable py_float : string → option float.

#[local] Abbreviation validate_field := (validate_field py_float).
#[local] Abbreviation field_error := (field_error py_float).
#[local] Abbreviation SearchParams_init := (SearchParams_init py_float).

Lemma validate_field_raises kw f e :
  validate_field kw f = Raise e → ∃ msg, e = ValueError msg.
Proof.
  unfold validate_field. destruct (kw f) as [v|]; [|done].
  destruct f; simpl in *; try done;
    unfold validate_format, validate_limit, validate_zero_one, validate_viewbox;
    repeat case_match; intros [= <-]; eauto.
Qed.

Lemma field_error_of_Ok kw f v : validate_field kw f = Ok v → field_error kw f = None.
Proof. unfold field_error. by intros ->. Qed.

Lemma field_error_of_Raise kw f msg :
  validate_field kw f = Raise (ValueError msg) →
  field_error kw f = Some (field_name f, msg).
Proof. unfold field_error. by intros ->. Qed.


Lemma accepted_field kw f v :
  validate_field kw f = Ok v →
  (∀ errors msg,
     SearchParams_init kw = Raise (ValidationError errors) →
     (field_name f, msg) ∉ errors) ∧
  ((∀ g, g ≠ f → field_error kw g = None) →
   ∃ p, SearchParams_init kw = Ok p ∧ value_of p f = v).
Proof.
  intros Hv. pose proof (field_error_of_Ok kw f v Hv) as Hnone. split.
  - intros errors msg Hinit Hin.
    destruct (SearchParams_init_errors _ kw errors _ Hinit Hin) as [g Hg].
    pose proof (field_error_name _ kw g _ Hg) as Hname. simpl in Hname.
    apply field_name_inj in Hname as ->. congruence.
  - intros Hothers.
    destruct (SearchParams_init_succeeds py_float kw) as [p Hp].
    { intros g. destruct (decide (g = f)) as [->|Hg]; auto. }
    exists p. split; [done|].
    destruct (SearchParams_init_Ok _ kw p f Hp) as [_ ->].
    unfold validate_field in Hv. destruct (kw f) as [w|].
    + by apply field_validator_id in Hv.
    + by injection Hv.
Qed.

Lemma rejected_field kw f msg :
  validate_field kw f = Raise (ValueError msg) →
  ∃ errors,
    SearchParams_init kw = Raise (ValidationError errors) ∧
    (field_name f, msg) ∈ errors.
Proof.
  intros Hv. apply (SearchParams_init_raises py_float kw f).
  by apply field_error_of_Raise.
Qed.

(** X1. [limit]: a given limit below 1 or above 40 makes the construction
    raise a validation error that names [limit], with the message of
    [validate_limit]; a given limit from 1 to 40 raises no error of its
    own, and the construction succeeds, storing it, if no other argument
    raises one. *)
Theorem limit_validation (kw : kwargs) (v : Z) :
  kw f_limit = Some v →
  ((v < 1 ∨ 40 < v)%Z →
   ∃ errors,
     SearchParams_init kw = Raise (ValidationError errors) ∧
     ("limit", "Limit must be between 1 and 40.") ∈ errors) ∧
  ((1 ≤ v ≤ 40)%Z →
   (∀ errors msg,
      SearchParams_init kw = Raise (ValidationError errors) →
      ("limit", msg) ∉ errors) ∧
   ((∀ g, g ≠ f_limit → field_error kw g = None) →
    ∃ p, SearchParams_init kw = Ok p ∧ value_of p f_limit = v)).
Proof.
  intros Hkw.
  assert (validate_field kw f_limit = validate_limit v) as Hv.
  { unfold validate_field. by rewrite Hkw. }
  split.
  - intros Hout. apply (rejected_field kw f_limit). rewrite Hv.
    unfold validate_limit.
    destruct (1 <=? v)%Z eqn:H1; destruct (v <=? 40)%Z eqn:H2; simpl; try done.
    apply Z.leb_le in H1, H2. lia.
  - intros [H1 H2]. apply (accepted_field kw f_limit v). rewrite Hv.
    unfold validate_limit.
    apply Z.leb_le in H1, H2. by rewrite H1, H2.
Qed.

(** X2. [format]: a given format outside the five allowed values makes the
    construction raise a validation error that names [format]; one of the
    five raises no error of its own, and the construction succeeds, storing
    it, if no other argument raises one. *)
Theorem format_validation (kw : kwargs) (v : string) :
  kw f_format = Some v →
  (v ∉ ["xml"; "json"; "jsonv2"; "geojson"; "geocodejson"] →
   ∃ errors msg,
     SearchParams_init kw = Raise (ValidationError errors) ∧
     ("format", msg) ∈ errors) ∧
  (v ∈ ["xml"; "json"; "jsonv2"; "geojson"; "geocodejson"] →
   (∀ errors msg,
      SearchParams_init kw = Raise (ValidationError errors) →
      ("format", msg) ∉ errors) ∧
   ((∀ g, g ≠ f_format → field_error kw g = None) →
    ∃ p, SearchParams_init kw = Ok p ∧ value_of p f_format = v)).
Proof.
  intros Hkw.
  assert (validate_field kw f_format = validate_format v) as Hv.
  { unfold validate_field. by rewrite Hkw. }
  split.
  - intros Hout.
    destruct (rejected_field kw f_format
      "Invalid format. Choose from: ['xml', 'json', 'jsonv2', 'geojson', 'geocodejson']")
      as (errors & Hinit & Hin); [|by eauto].
    rewrite Hv. unfold validate_format, allowed_formats.
    by rewrite bool_decide_eq_false_2.
  - intros Hin. apply (accepted_field kw f_format v). rewrite Hv.
    unfold validate_format, allowed_formats. by rewrite bool_decide_eq_true_2.
Qed.

(** X3. The six flags [addressdetails], [extratags], [namedetails],
    [bounded], [dedupe] and [debug]: a given value other than 0 and 1 makes
    the construction raise a validation error that names the flag; 0 and 1
    raise no error of their own. *)
Theorem zero_one_validation (kw : kwargs) (f : field) (v : Z) :
  f ∈ zero_one_fields → given kw f = Some (PInt v) →
  (v ≠ 0%Z ∧ v ≠ 1%Z →
   ∃ errors,
     SearchParams_init kw = Raise (ValidationError errors) ∧
     (field_name f, "Value must be 0 or 1.") ∈ errors) ∧
  (v = 0%Z ∨ v = 1%Z →
   (∀ errors msg,
      SearchParams_init kw = Raise (ValidationError errors) →
      (field_name f, msg) ∉ errors) ∧
   ((∀ g, g ≠ f → field_error kw g = None) →
    ∃ p, SearchParams_init kw = Ok p ∧
         to_pyval (field_type f) (value_of p f) = PInt v)).
Proof.
  intros Hf Hgiven.
  assert (∃ w : denote (field_type f),
            validate_field kw f = (validate_zero_one v ≫= fun _ => Ok w) ∧
            to_pyval (field_type f) w = PInt v) as Hv.
  { unfold zero_one_fields in Hf. unfold given, validate_field in *.
    repeat (apply elem_of_cons in Hf as [->|Hf]);
      [..|by apply elem_of_nil in Hf];
      (destruct (kw _) as [w|]; [|done]); injection Hgiven as ->;
      exists v; simpl; unfold validate_zero_one; by case_bool_decide. }
  split.
  - intros [H0 H1]. apply (rejected_field kw f).
    destruct Hv as (w & -> & _). unfold validate_zero_one.
    rewrite bool_decide_eq_false_2; [done|].
    rewrite !elem_of_cons, elem_of_nil. tauto.
  - intros H01.
    assert (∃ w, validate_field kw f = Ok w ∧
                 to_pyval (field_type f) w = PInt v) as (w & Hw & Hpy).
    { destruct Hv as (w & Hw & Hpy). exists w. split; [|done].
      rewrite Hw. unfold validate_zero_one.
      rewrite bool_decide_eq_true_2; [done|].
      rewrite !elem_of_cons. tauto. }
    destruct (accepted_field kw f w Hw) as [Hnot Hok]. split; [done|].
    intros Hothers. destruct (Hok Hothers) as (p & Hp & <-). eauto.
Qed.

(** X4. The polygon flags [polygon_geojson], [polygon_kml], [polygon_svg]
    and [polygon_text] have no validator: every given integer raises no
    error of its own, and when the construction succeeds the integer is in
    the mapping that [search] sends. *)
Theorem polygon_flags_unvalidated (kw : kwargs) (f : field) (v : Z) :
  f ∈ polygon_flags → given kw f = Some (PInt v) →
  (∀ errors msg,
     SearchParams_init kw = Raise (ValidationError errors) →
     (field_name f, msg) ∉ errors) ∧
  ((∀ g, g ≠ f → field_error kw g = None) →
   ∃ p, SearchParams_init kw = Ok p ∧
        params_dict_of p !! field_name f = Some (PInt v)).
Proof.
  intros Hf Hgiven.
  assert (∃ w : denote (field_type f),
            kw f = Some w ∧ validate_field kw f = Ok w ∧
            to_pyval (field_type f) w = PInt v ∧ f ≠ f_format)
    as (w & Hkw & Hw & Hpy & Hne).
  { unfold polygon_flags in Hf. unfold given, validate_field in *.
    repeat (apply elem_of_cons in Hf as [->|Hf]);
      [..|by apply elem_of_nil in Hf];
      (destruct (kw _) as [w|]; [|done]); injection Hgiven as ->;
      by exists v. }
  destruct (accepted_field kw f w Hw) as [Hnot Hok]. split; [done|].
  intros Hothers. destruct (Hok Hothers) as (p & Hp & Hval).
  exists p. split; [done|].
  destruct (params_dict_of_lookup p) as (_ & Hset & _).
  rewrite (Hset f Hne). unfold dump_entry.
  destruct (SearchParams_init_Ok _ kw p f Hp) as [-> _].
  rewrite Hkw, Hval, Hpy. reflexivity.
Qed.

Lemma validate_viewbox_Ok_inv s v :
  validate_viewbox py_float (Some s) = Ok v →
  s = EmptyString ∨
  length (split_on "," s) = 4 ∧
  Forall (fun c => is_Some (py_float c)) (split_on "," s).
Proof.
  destruct s as [|c s]; [by left|]. right. unfold validate_viewbox in H.
  destruct (length (split_on "," (String c s)) =? 4) eqn:Hlen; [|done].
  destruct (mapM py_float (split_on "," (String c s))) as [xs|] eqn:Hm; [|done].
  split; [by apply Nat.eqb_eq | apply mapM_is_Some; by exists xs].
Qed.


Lemma valid_kwargs_of_Ok kw :
  (∀ f, ∃ v, validate_field kw f = Ok v) → valid_kwargs py_float kw.
Proof.
  intros Hok. unfold valid_kwargs, given. split_and!.
  - intros v Hv. destruct (Hok f_format) as [w Hw].
    unfold validate_field in Hw. destruct (kw f_format) as [u|]; [|done].
    injection Hv as ->. simpl in Hw. unfold validate_format in Hw.
    by case_bool_decide.
  - intros v Hv. destruct (Hok f_limit) as [w Hw].
    unfold validate_field in Hw. destruct (kw f_limit) as [u|]; [|done].
    injection Hv as ->. simpl in Hw. unfold validate_limit in Hw.
    destruct (1 <=? v)%Z eqn:H1; destruct (v <=? 40)%Z eqn:H2; try done.
    apply Z.leb_le in H1, H2. lia.
  - intros f v Hf Hv. destruct (Hok f) as [w Hw].
    unfold validate_field, zero_one_fields in *.
    repeat (apply elem_of_cons in Hf as [->|Hf]);
      [..|by apply elem_of_nil in Hf];
      (destruct (kw _) as [u|]; [|done]); injection Hv as ->;
      simpl in Hw; unfold validate_zero_one in Hw;
      (case_bool_decide as Hin; [|done]);
      rewrite !elem_of_cons, elem_of_nil in Hin; tauto.
  - intros s Hv. destruct (Hok f_viewbox) as [w Hw].
    unfold validate_field in Hw. destruct (kw f_viewbox) as [[u|]|]; try done.
    injection Hv as ->. simpl in Hw. by eapply validate_viewbox_Ok_inv.
Qed.

Lemma SearchParams_init_no_errors (kw : kwargs) p f :
  SearchParams_init kw = Ok p → field_error kw f = None.
Proof.
  unfold SearchParams_init.
  destruct (omap (field_error kw) all_fields) eqn:Herr; [|discriminate].
  intros _. apply (omap_nil_inv _ _ f Herr), all_fields_complete.
Qed.

Lemma SearchParams_init_Raise_inv (kw : kwargs) e :
  SearchParams_init kw = Raise e →
  ∃ errors, e = ValidationError errors ∧ errors ≠ [].
Proof.
  unfold SearchParams_init.
  destruct (omap (field_error kw) all_fields) as [|e0 es]; [discriminate|].
  intros [= <-]. by eauto.
Qed.



End ValidationFacts.

Lemma limit_validation_witness :
  (∃ errors,
     SearchParams_init Samples.decimal_float (with_kw f_limit 0%Z no_kwargs)
       = Raise (ValidationError errors) ∧
     ("limit", "Limit must be between 1 and 40.") ∈ errors) ∧
  (∃ p,
     SearchParams_init Samples.decimal_float (with_kw f_limit 40%Z no_kwargs)
       = Ok p ∧ value_of p f_limit = 40%Z).
Proof.
  split.
  - apply (limit_validation Samples.decimal_float
             (with_kw f_limit 0%Z no_kwargs) 0%Z eq_refl). lia.
  - apply (limit_validation Samples.decimal_float
             (with_kw f_limit 40%Z no_kwargs) 40%Z eq_refl); [lia|].
    intros g Hg. destruct g; first [reflexivity | contradiction Hg; reflexivity].
Defined.

Lemma format_validation_witness :
  (∃ errors msg,
     SearchParams_init Samples.decimal_float (with_kw f_format "yaml" no_kwargs)
       = Raise (ValidationError errors) ∧
     ("format", msg) ∈ errors) ∧
  (∃ p,
     SearchParams_init Samples.decimal_float (with_kw f_format "xml" no_kwargs)
       = Ok p ∧ value_of p f_format = "xml").
Proof.
  split.
  - apply (format_validation Samples.decimal_float
             (with_kw f_format "yaml" no_kwargs) "yaml" eq_refl).
    intros Hin. apply (bool_decide_pack _) in Hin. vm_compute in Hin. exact Hin.
  - apply (format_validation Samples.decimal_float
             (with_kw f_format "xml" no_kwargs) "xml" eq_refl).
    + apply (bool_decide_unpack _). vm_compute. exact I.
    + intros g Hg. destruct g; first [reflexivity | contradiction Hg; reflexivity].
Defined.

Lemma zero_one_validation_witness :
  (∃ errors,
     SearchParams_init Samples.decimal_float (with_kw f_debug 2%Z no_kwargs)
       = Raise (ValidationError errors) ∧
     ("debug", "Value must be 0 or 1.") ∈ errors) ∧
  (∃ p,
     SearchParams_init Samples.decimal_float (with_kw f_dedupe 0%Z no_kwargs)
       = Ok p ∧ to_pyval (field_type f_dedupe) (value_of p f_dedupe) = PInt 0).
Proof.
  split.
  - apply (zero_one_validation Samples.decimal_float
             (with_kw f_debug 2%Z no_kwargs) f_debug 2%Z).
    + apply list_elem_of_In. simpl. tauto.
    + reflexivity.
    + lia.
  - apply (zero_one_validation Samples.decimal_float
             (with_kw f_dedupe 0%Z no_kwargs) f_dedupe 0%Z).
    + apply list_elem_of_In. simpl. tauto.
    + reflexivity.
    + by left.
    + intros g Hg. destruct g; first [reflexivity | contradiction Hg; reflexivity].
Defined.

Lemma polygon_flags_unvalidated_witness :
  ∃ p,
    SearchParams_init Samples.decimal_float
      (with_kw f_polygon_geojson 7%Z no_kwargs) = Ok p ∧
    params_dict_of p !! "polygon_geojson" = Some (PInt 7).
Proof.
  apply (polygon_flags_unvalidated Samples.decimal_float
           (with_kw f_polygon_geojson 7%Z no_kwargs) f_polygon_geojson 7%Z).
  - apply list_elem_of_In. simpl. tauto.
  - reflexivity.
  - intros g Hg. destruct g; first [reflexivity | contradiction Hg; reflexivity].
Defined.



(** ** [search] *)

Lemma mapM_result_Ok {A B} (f : A → result B) (l : list A) (ys : list B) :
  mapM f l = Ok ys ↔ Forall2 (fun x y => f x = Ok y) l ys.
Proof.
  revert ys. induction l as [|x l IH]; intros ys; simpl.
  - split.
    + intros [= <-]. constructor.
    + intros H. by inversion H.
  - split.
    + intros H. apply bind_is_Ok in H as (y & Hy & H).
      apply bind_is_Ok in H as (k & Hk & [= <-]).
      constructor; [done | by apply IH].
    + intros H. inversion H as [|? y ? k Hy Hk]; subst.
      rewrite Hy. simpl. apply IH in Hk. by rewrite Hk.
Qed.



Lemma field_of_name k : (∃ f, field_name f = k) ∨ (∀ f, field_name f ≠ k).
Proof.
  destruct (decide (k ∈ field_name <$> all_fields)) as [Hin | Hout].
  - left. apply list_elem_of_fmap in Hin as (f & -> & _). by exists f.
  - right. intros f <-. apply Hout, list_elem_of_fmap.
    exists f. split; [done | apply all_fields_complete].
Qed.

Section SearchFacts.

Variable py_float : string → option float.
Variable self : NominatimSearch.

#[local] Abbreviation SearchParams_init := (SearchParams_init py_float).
#[local] Abbreviation search_request := (search_request py_float self).
#[local] Abbreviation search := (search py_float self).

Lemma string_kwargs_accepted s :
  ∃ p, SearchParams_init (with_kw f_q (Some s) no_kwargs) = Ok p.
Proof.
  apply SearchParams_init_succeeds. intros f. by destruct f.
Qed.

Lemma string_params_dict s p :
  SearchParams_init (with_kw f_q (Some s) no_kwargs) = Ok p →
  params_dict_of p = {["q" := PStr s; "format" := PStr "jsonv2"]}.
Proof.
  intros Hp. apply map_eq. intros k.
  destruct (params_dict_of_lookup p) as (Hformat & Hset & Hother).
  destruct (field_of_name k) as [[f <-] | Hk].
  - destruct (decide (f = f_format)) as [-> | Hf].
    + change (field_name f_format) with "format". rewrite Hformat.
      rewrite lookup_insert_ne by done. by rewrite lookup_singleton_eq.
    + rewrite (Hset f Hf). unfold dump_entry.
      destruct (SearchParams_init_Ok _ _ p f Hp) as [-> ->].
      destruct f; simpl; try done;
        first [ by rewrite lookup_insert_eq
              | by rewrite lookup_insert_ne, lookup_singleton_ne ].
  - rewrite (Hother k Hk). symmetry.
    rewrite lookup_insert_ne by apply (Hk f_q).
    apply lookup_singleton_ne, (Hk f_format).
Qed.

(** X7. A search for a plain string never fails before the request, and
    the request goes to the configured URL with exactly two parameters: [q],
    the string as it is, also when it is empty, and [format], [jsonv2]. *)
Theorem search_request_of_string (s : string) :
  ∃ req,
    search_request (QStr s) = Ok req ∧
    req_url req = base_url self ∧
    req_params req = {["q" := PStr s; "format" := PStr "jsonv2"]}.
Proof.
  unfold search_request. destruct (string_kwargs_accepted s) as [p Hp].
  rewrite Hp. simpl. eexists. split; [reflexivity|]. simpl.
  split; [done | by apply string_params_dict].
Qed.

(** X8. What [search] raises before any request: for an argument that is
    neither a string, a dict nor an instance, the [TypeError] of the method;
    for a dict that the validators do not let through, a validation error.
    Both are raised whatever the network would answer. *)
Theorem search_fails_before_request (session_get : request → result response) :
  search session_get QOther
    = Raise (TypeError "Invalid parameters. Must be str, dict, or SearchParams.") ∧
  (∀ kw, ¬ valid_kwargs py_float kw →
     ∃ errors,
       search session_get (QDict kw) = Raise (ValidationError errors) ∧
       errors ≠ []).
Proof.
  split; [done|]. intros kw Hinvalid.
  unfold search, search_request.
  destruct (SearchParams_init kw) as [p|e] eqn:Hinit.
  - exfalso. apply Hinvalid, valid_kwargs_of_Ok. intros f.
    apply field_error_None. by eapply SearchParams_init_no_errors.
  - destruct (SearchParams_init_Raise_inv py_float kw e Hinit)
      as (errors & -> & Hne).
    by exists errors.
Qed.


End SearchFacts.

Lemma search_fails_before_request_witness :
  ∃ errors,
    search Samples.decimal_float Samples.client (Samples.one_hit 0)
      (QDict (with_kw f_limit 41%Z no_kwargs))
    = Raise (ValidationError errors) ∧ errors ≠ [].
Proof.
  apply (search_fails_before_request Samples.decimal_float Samples.client
           (Samples.one_hit 0)).
  intros (_ & Hlimit & _). specialize (Hlimit 41%Z eq_refl). lia.
Defined.


(** ** [Location.area] on boxes of any length *)

(** X10. [area] by the length of the bounding box: the empty list is
    treated like a missing box; a list of one to three elements raises an
    [IndexError]; of a list of four elements or more the first four are
    read, [(b1 - b0) * (b2 - b3)], and the others are ignored. *)
Theorem area_by_box_length (loc : Location) (bb : list float) :
  boundingbox loc = Some bb →
  (length bb = 0 → area loc = Raise (ValueError "Boundingbox not found")) ∧
  (1 ≤ length bb < 4 → area loc = Raise IndexError) ∧
  (4 ≤ length bb →
   ∃ b0 b1 b2 b3 others,
     bb = b0 :: b1 :: b2 :: b3 :: others ∧
     area loc = Ok ((b1 - b0) * (b2 - b3))%float).
Proof.
  intros Hbb. unfold area. rewrite Hbb.
  destruct bb as [|b0 [|b1 [|b2 [|b3 others]]]]; simpl;
    (split_and!; intros Hlen; try lia; try done).
  by exists b0, b1, b2, b3, others.
Qed.

Lemma area_by_box_length_witness :
  area (Samples.boxed []) = Raise (ValueError "Boundingbox not found") ∧
  area (Samples.boxed [10; 12]%float) = Raise IndexError ∧
  ∃ b0 b1 b2 b3 others,
    [10; 12; 20; 25; 99]%float = b0 :: b1 :: b2 :: b3 :: others ∧
    area (Samples.boxed [10; 12; 20; 25; 99]%float)
      = Ok ((b1 - b0) * (b2 - b3))%float.
Proof.
  split; [|split].
  - apply (area_by_box_length (Samples.boxed []) [] eq_refl). reflexivity.
  - apply (area_by_box_length (Samples.boxed [10; 12]%float) _ eq_refl).
    simpl. lia.
  - apply (area_by_box_length (Samples.boxed [10; 12; 20; 25; 99]%float)
             _ eq_refl).
    simpl. lia.
Defined.

(** ** [reduce_locations]: what is discarded *)

Section ReduceCovers.

Variable geodesic_meters : float * float → float * float → result float.

#[local] Abbreviation distance_to := (distance_to geodesic_meters).
#[local] Abbreviation all_far := (all_far geodesic_meters).
#[local] Abbreviation reduce_loop := (reduce_loop geodesic_meters).
#[local] Abbreviation reduce_locations := (reduce_locations geodesic_meters).

(** The test of the loop fails on [loc] against [r]. *)
#[local] Abbreviation near d loc r :=
  (∃ x, distance_to loc r = Ok x ∧ PrimFloat.leb d x = false).

Lemma all_far_false loc d kept :
  all_far loc d kept = Ok false → ∃ r, r ∈ kept ∧ near d loc r.
Proof.
  induction kept as [|r rs IH]; simpl; [done|]. intros H.
  apply bind_is_Ok in H as (x & Hx & H).
  destruct (PrimFloat.leb d x) eqn:Hle.
  - destruct (IH H) as (r' & Hin & Hnear). exists r'. split; [by right | done].
  - exists r. split; [by left | by exists x].
Qed.

Lemma reduce_loop_covers d kept rest out :
  reduce_loop d kept rest = Ok out →
  ∀ loc, loc ∈ rest → loc ∈ out ∨ ∃ r, r ∈ out ∧ near d loc r.
Proof.
  revert kept. induction rest as [|l rest IH]; intros kept H loc Hin.
  - by apply elem_of_nil in Hin.
  - simpl in H. apply bind_is_Ok in H as (keep & Hkeep & H).
    apply elem_of_cons in Hin as [-> | Hin]; [|by eapply IH].
    destruct (reduce_loop_extends _ _ _ _ _ H) as (added & -> & _).
    destruct keep.
    + left. rewrite !elem_of_app, list_elem_of_singleton. auto.
    + right. destruct (all_far_false _ _ _ Hkeep) as (r & Hr & Hnear).
      exists r. split; [|done]. rewrite elem_of_app. auto.
Qed.

(** X11. Whatever [reduce_locations] discards is too close to something it
    keeps: every location of the input is in the returned list, or fails
    the test of the loop, [distance_to >= min_distance], against a location
    of the returned list. *)
Theorem reduce_locations_covers xs d out :
  reduce_locations xs d = Ok out →
  ∀ loc, loc ∈ xs →
    loc ∈ out ∨
    ∃ r x, r ∈ out ∧ distance_to loc r = Ok x ∧ PrimFloat.leb d x = false.
Proof.
  intros H loc Hin. destruct xs as [|first rest]; [by apply elem_of_nil in Hin|].
  simpl in H. apply elem_of_cons in Hin as [-> | Hin].
  - left. destruct (reduce_loop_extends _ _ _ _ _ H) as (added & -> & _).
    by left.
  - destruct (reduce_loop_covers _ _ _ _ H loc Hin) as [? | (r & Hr & x & Hx)];
      [by left | right; by exists r, x].
Qed.

End ReduceCovers.

Lemma reduce_locations_covers_witness :
  Samples.loc_B ∈ [Samples.loc_A; Samples.loc_C] ∨
  ∃ r x,
    r ∈ [Samples.loc_A; Samples.loc_C] ∧
    distance_to Samples.grid_meters Samples.loc_B r = Ok x ∧
    PrimFloat.leb 100 x = false.
Proof.
  apply (reduce_locations_covers Samples.grid_meters
           [Samples.loc_A; Samples.loc_B; Samples.loc_C] 100%float).
  - vm_compute. reflexivity.
  - apply list_elem_of_In. simpl. tauto.
Defined.

(** ** The sorts: what they return, and in which order *)

Section SortPermutation.

Context {A K : Type}.
Variable lt : K → K → result bool.
Implicit Types (pivot : K * A) (run todo : list (K * A)).

Lemma insert_run_perm pivot run r :
  insert_run lt pivot run = Ok r → r ≡ₚ pivot :: run.
Proof.
  revert r. induction run as [|y ys IH]; intros r; simpl.
  - by intros [= <-].
  - intros H. apply bind_is_Ok in H as (b & _ & H). destruct b.
    + apply bind_is_Ok in H as (r' & Hr' & [= <-]).
      rewrite (IH r' Hr'). apply Permutation_swap.
    + by injection H as <-.
Qed.

Lemma sort_run_perm run todo r :
  sort_run lt run todo = Ok r → r ≡ₚ todo ++ run.
Proof.
  revert run. induction todo as [|p todo IH]; intros run; simpl.
  - by intros [= <-].
  - intros H. apply bind_is_Ok in H as (r' & Hr' & H).
    rewrite (IH _ H), (insert_run_perm _ _ _ Hr').
    symmetry. apply Permutation_middle.
Qed.

(** The sorted run behind a result of [sorted]. *)
Lemma sorted_Ok_inv (key : A → K) reverse xs out :
  sorted lt key reverse xs = Ok out →
  ∃ run,
    run ≡ₚ map (fun x => (key x, x)) xs ∧
    sort_run lt []
      (if reverse then rev (map (fun x => (key x, x)) xs)
       else map (fun x => (key x, x)) xs) = Ok run ∧
    out = map snd (if reverse then run else rev run).
Proof.
  unfold sorted. intros H. apply bind_is_Ok in H as (run & Hrun & [= <-]).
  exists run. split_and!; [|done|].
  - rewrite (sort_run_perm _ _ _ Hrun), app_nil_r.
    destruct reverse; [|done]. symmetry. apply Permutation_rev.
  - destruct reverse; [|done]. by rewrite rev_involutive.
Qed.

Lemma map_snd_keyed (key : A → K) xs :
  map snd (map (fun x => (key x, x)) xs) = xs.
Proof. rewrite map_map. simpl. apply map_id. Qed.

Lemma sorted_perm (key : A → K) reverse xs out :
  sorted lt key reverse xs = Ok out → out ≡ₚ xs.
Proof.
  intros H. apply sorted_Ok_inv in H as (run & Hperm & _ & ->).
  transitivity (map snd (map (fun x => (key x, x)) xs));
    [|by rewrite map_snd_keyed].
  apply Permutation_map.
  destruct reverse; [done|]. rewrite <- Hperm. symmetry. apply Permutation_rev.
Qed.

End SortPermutation.

Lemma StronglySorted_lookup {X} (R : relation X) l i j a b :
  StronglySorted R l → i < j → l !! i = Some a → l !! j = Some b → R a b.
Proof.
  intros Hl. revert i j. induction Hl as [|x l Hl IH Hx]; intros i j Hij Ha Hb.
  - by rewrite lookup_nil in Ha.
  - destruct j as [|j]; [lia|]. simpl in Hb. destruct i as [|i].
    + injection Ha as <-. rewrite Forall_forall in Hx.
      apply Hx. by eapply list_elem_of_lookup_2.
    + simpl in Ha. apply (IH i j); [lia | done..].
Qed.

Lemma StronglySorted_rev {X} (R : relation X) l :
  StronglySorted R l → StronglySorted (flip R) (rev l).
Proof.
  induction 1 as [|x l Hl IH Hx]; simpl; [constructor|].
  apply StronglySorted_app_2; [|done|repeat constructor].
  intros x1 x2 Hx1 ->%list_elem_of_singleton. simpl.
  rewrite Forall_forall in Hx. apply Hx.
  apply list_elem_of_In in Hx1. apply in_rev in Hx1. by apply list_elem_of_In.
Qed.

Section SortOrder.

Context {A K : Type}.
Variable lt : K → K → result bool.
Variable good : K → Prop.
Implicit Types (pivot : K * A) (run todo : list (K * A)).

Hypothesis lt_total : ∀ a b, good a → good b → ∃ c, lt a b = Ok c.

#[local] Abbreviation good_key := (fun p : K * A => good (fst p)).

Lemma insert_run_total pivot run :
  good_key pivot → Forall good_key run → ∃ r, insert_run lt pivot run = Ok r.
Proof.
  intros Hp Hrun. induction Hrun as [|y ys Hy Hys [r IH]]; simpl; [by eauto|].
  destruct (lt_total (fst pivot) (fst y) Hp Hy) as [c ->]. simpl.
  destruct c; [|by eauto]. rewrite IH. simpl. by eauto.
Qed.

Lemma sort_run_total run todo :
  Forall good_key run → Forall good_key todo → ∃ r, sort_run lt run todo = Ok r.
Proof.
  intros Hrun Htodo. revert run Hrun.
  induction Htodo as [|p todo Hp Htodo IH]; intros run Hrun; simpl; [by eauto|].
  destruct (insert_run_total p run Hp Hrun) as [r Hr]. rewrite Hr. simpl.
  apply IH. rewrite (insert_run_perm _ _ _ _ Hr). by constructor.
Qed.

Lemma keyed_good (key : A → K) xs :
  Forall (fun x => good (key x)) xs →
  Forall good_key (map (fun x => (key x, x)) xs).
Proof. induction 1; simpl; by constructor. Qed.

Lemma sorted_total (key : A → K) reverse xs :
  Forall (fun x => good (key x)) xs → ∃ out, sorted lt key reverse xs = Ok out.
Proof.
  intros Hxs. unfold sorted.
  destruct (sort_run_total []
              (if reverse then rev (map (fun x => (key x, x)) xs)
               else map (fun x => (key x, x)) xs)) as [run ->];
    [constructor | | simpl; by eauto].
  pose proof (keyed_good key xs Hxs) as Hkeyed.
  destruct reverse; [|done]. by rewrite <- Permutation_rev.
Qed.

Hypothesis lt_asym : ∀ a b, lt a b = Ok true → lt b a = Ok false.
Hypothesis lt_negtrans : ∀ a b c,
  good b → lt a b = Ok false → lt b c = Ok false → lt a c = Ok false.

(** [p] is not below [q]. *)
#[local] Abbreviation above := (fun p q : K * A => lt (fst p) (fst q) = Ok false).

Lemma insert_run_sorted pivot run r :
  Forall good_key run → StronglySorted above run →
  insert_run lt pivot run = Ok r → StronglySorted above r.
Proof.
  intros Hgood Hrun. revert r.
  induction Hrun as [|y ys Hys IH Hy]; intros r; simpl.
  - intros [= <-]. by repeat constructor.
  - apply Forall_cons in Hgood as [Hgy Hgys]. intros H.
    apply bind_is_Ok in H as (b & Hb & H). destruct b.
    + apply bind_is_Ok in H as (r' & Hr' & [= <-]).
      constructor; [by apply IH|].
      rewrite (insert_run_perm _ _ _ _ Hr'). constructor; [|done].
      by apply lt_asym.
    + injection H as <-. constructor; [by constructor|].
      constructor; [done|]. eapply Forall_impl; [exact Hy|].
      intros z Hz. simpl in *. by eapply lt_negtrans.
Qed.

Lemma sort_run_sorted run todo r :
  Forall good_key run → Forall good_key todo → StronglySorted above run →
  sort_run lt run todo = Ok r → StronglySorted above r.
Proof.
  intros Hrun Htodo. revert run Hrun.
  induction Htodo as [|p todo Hp Htodo IH]; intros run Hrun Hsorted; simpl.
  - by intros [= <-].
  - intros H. apply bind_is_Ok in H as (r' & Hr' & H).
    apply (IH r'); [|by eapply insert_run_sorted|done].
    rewrite (insert_run_perm _ _ _ _ Hr'). by constructor.
Qed.

Lemma sorted_keys_order (key : A → K) (run : list (K * A)) :
  Forall (fun p => fst p = key (snd p)) run → StronglySorted above run →
  StronglySorted (fun a b => lt (key a) (key b) = Ok false) (map snd run).
Proof.
  intros Hkey Hrun. induction Hrun as [|y ys Hys IH Hy]; simpl; [constructor|].
  apply Forall_cons in Hkey as [Hky Hkys]. constructor; [by apply IH|].
  rewrite Forall_forall in Hy, Hkys. apply Forall_forall.
  intros b Hb. change (map snd ys) with (snd <$> ys) in Hb.
  apply list_elem_of_fmap in Hb as (q & -> & Hq).
  rewrite <- Hky, <- (Hkys q Hq). by apply Hy.
Qed.

(** With [reverse] no element is followed by one with a greater key;
    without it, by one with a smaller key. *)
Lemma sorted_order (key : A → K) reverse xs out :
  Forall (fun x => good (key x)) xs →
  sorted lt key reverse xs = Ok out →
  StronglySorted
    (fun a b => if reverse : bool then lt (key a) (key b) = Ok false
                else lt (key b) (key a) = Ok false) out.
Proof.
  intros Hxs H.
  pose proof (keyed_good key xs Hxs) as Hkeyed.
  apply sorted_Ok_inv in H as (run & Hperm & Hrun & ->).
  assert (Forall (fun p : K * A => fst p = key (snd p)) run) as Hkey.
  { rewrite Hperm. clear. induction xs; simpl; by constructor. }
  assert (StronglySorted above run) as Hsorted.
  { eapply sort_run_sorted; [constructor | | constructor | exact Hrun].
    destruct reverse; [|done]. by rewrite <- Permutation_rev. }
  pose proof (sorted_keys_order key run Hkey Hsorted) as Hout.
  destruct reverse; [done|].
  rewrite map_rev. by apply StronglySorted_rev in Hout.
Qed.

End SortOrder.

(** *** The order of the floats *)

Ltac cmp_cases :=
  repeat match goal with
  | |- context [Z.compare ?a ?b] => destruct (Z.compare_spec a b)
  | |- context [Pos.compare_cont Eq ?a ?b] =>
      change (Pos.compare_cont Eq a b) with (Pos.compare a b);
      destruct (Pos.compare_spec a b)
  end.

Lemma SFltb_asym x y : SFltb x y = true → SFltb y x = false.
Proof.
  unfold SFltb, SFcompare.
  destruct x as [sx|sx| |sx mx ex], y as [sy|sy| |sy my ey];
    try destruct sx; try destruct sy; simpl; try (intros; congruence);
    cmp_cases; simpl; intros; try congruence; try lia.
Qed.

Lemma SFltb_negtrans x y z :
  y ≠ S754_nan → SFltb x y = false → SFltb y z = false → SFltb x z = false.
Proof.
  unfold SFltb, SFcompare. intros Hy.
  destruct x as [sx|sx| |sx mx ex], y as [sy|sy| |sy my ey],
           z as [sz|sz| |sz mz ez];
    try destruct sx; try destruct sy; try destruct sz; simpl;
    try (intros; congruence);
    cmp_cases; simpl; intros; try congruence; try lia.
Qed.

Lemma is_nan_SF x : PrimFloat.is_nan x = false → Prim2SF x ≠ S754_nan.
Proof.
  unfold is_nan. rewrite FloatAxioms.eqb_spec. intros H E. rewrite E in H.
  discriminate.
Qed.

Lemma ltb_asym x y : PrimFloat.ltb x y = true → PrimFloat.ltb y x = false.
Proof. rewrite !FloatAxioms.ltb_spec. apply SFltb_asym. Qed.

Lemma ltb_negtrans x y z :
  PrimFloat.is_nan y = false →
  PrimFloat.ltb x y = false → PrimFloat.ltb y z = false →
  PrimFloat.ltb x z = false.
Proof.
  rewrite !FloatAxioms.ltb_spec. intros H. by apply SFltb_negtrans, is_nan_SF.
Qed.

(** *** [sort_by_importance] *)

Lemma key_lt_total a b : is_Some a → is_Some b → ∃ c, key_lt a b = Ok c.
Proof. intros [x ->] [y ->]. simpl. by eauto. Qed.

Lemma key_lt_asym a b : key_lt a b = Ok true → key_lt b a = Ok false.
Proof.
  destruct a as [x|], b as [y|]; simpl; try done.
  intros [= H]. by rewrite (ltb_asym _ _ H).
Qed.

Lemma key_lt_negtrans a b c :
  (∃ y, b = Some y ∧ PrimFloat.is_nan y = false) →
  key_lt a b = Ok false → key_lt b c = Ok false → key_lt a c = Ok false.
Proof.
  intros (y & -> & Hy). destruct a as [x|], c as [z|]; simpl; try done.
  intros [= H1] [= H2]. by rewrite (ltb_negtrans x y z).
Qed.

(** X12. [sort_by_importance] returns exactly when the list has fewer than
    two locations or every location has an importance; what it returns has
    the locations of the input, each as many times as the input has it. *)
Theorem sort_by_importance_returns_iff (locations : list Location) :
  ((∃ out, sort_by_importance locations = Ok out) ↔
   length locations < 2 ∨
   Forall (fun loc => is_Some (importance loc)) locations) ∧
  (∀ out, sort_by_importance locations = Ok out → out ≡ₚ locations).
Proof.
  split; [split|].
  - intros [out Hout].
    destruct (decide (length locations < 2)) as [|Hlen]; [by left|]. right.
    destruct (decide (Forall (fun loc => is_Some (importance loc)) locations))
      as [|Hnot]; [done|]. exfalso.
    apply not_Forall_Exists in Hnot; [|apply _].
    apply Exists_exists in Hnot as (loc & Hin & Hnone). simpl in Hnone.
    destruct (sort_by_importance_raises locations) as [msg Hmsg];
      [lia | | congruence].
    exists loc. split; [done|]. by apply eq_None_not_Some.
  - intros [Hlen | Hall].
    + destruct locations as [|a [|b l]]; simpl in Hlen; [by eauto.. | lia].
    + apply (sorted_total key_lt is_Some key_lt_total importance true _ Hall).
  - intros out. apply sorted_perm.
Qed.

(** X13. On locations that all have an importance, none of them NaN,
    [sort_by_importance] returns the locations in descending order of
    importance: no location comes before one of greater importance. *)
Theorem sort_by_importance_descending (locations : list Location) :
  Forall (fun loc => ∃ x, importance loc = Some x ∧ PrimFloat.is_nan x = false)
    locations →
  ∃ out,
    sort_by_importance locations = Ok out ∧ out ≡ₚ locations ∧
    ∀ i j a b x y,
      i < j → out !! i = Some a → out !! j = Some b →
      importance a = Some x → importance b = Some y →
      PrimFloat.ltb x y = false.
Proof.
  intros Hall.
  destruct (sorted_total key_lt is_Some key_lt_total importance true locations)
    as [out Hout].
  { eapply Forall_impl; [exact Hall|]. intros loc (x & -> & _). by eauto. }
  exists out. split; [done|]. split; [by eapply sorted_perm|].
  intros i j a b x y Hij Ha Hb Hx Hy.
  pose proof (sorted_order key_lt
                (fun k => ∃ x, k = Some x ∧ PrimFloat.is_nan x = false)
                key_lt_asym key_lt_negtrans importance true locations out
                Hall Hout) as Hsorted.
  pose proof (StronglySorted_lookup _ out i j a b Hsorted Hij Ha Hb) as Hab.
  simpl in Hab. rewrite Hx, Hy in Hab. simpl in Hab. by injection Hab.
Qed.

Lemma sort_by_importance_returns_iff_witness :
  ∃ out,
    sort_by_importance [Samples.loc_A; Samples.loc_B; Samples.loc_D] = Ok out ∧
    out ≡ₚ [Samples.loc_A; Samples.loc_B; Samples.loc_D].
Proof.
  destruct (sort_by_importance_returns_iff
              [Samples.loc_A; Samples.loc_B; Samples.loc_D]) as [Hiff Hperm].
  destruct (proj2 Hiff) as [out Hout].
  { right. repeat constructor; by eexists. }
  exists out. split; [exact Hout | exact (Hperm out Hout)].
Defined.

Lemma sort_by_importance_descending_witness :
  ∃ out,
    sort_by_importance [Samples.loc_A; Samples.loc_B; Samples.loc_D] = Ok out ∧
    out ≡ₚ [Samples.loc_A; Samples.loc_B; Samples.loc_D] ∧
    ∀ i j a b x y,
      i < j → out !! i = Some a → out !! j = Some b →
      importance a = Some x → importance b = Some y →
      PrimFloat.ltb x y = false.
Proof.
  apply (sort_by_importance_descending
           [Samples.loc_A; Samples.loc_B; Samples.loc_D]).
  repeat constructor; eexists; (split; [reflexivity | vm_compute; reflexivity]).
Defined.

(** *** [sort_by_distance] *)

Lemma float_lt_total a b : True → True → ∃ c, float_lt a b = Ok c.
Proof. intros _ _. unfold float_lt. by eauto. Qed.

Lemma float_lt_asym a b : float_lt a b = Ok true → float_lt b a = Ok false.
Proof. unfold float_lt. intros [= H]. by rewrite (ltb_asym _ _ H). Qed.

Lemma float_lt_negtrans a b c :
  PrimFloat.is_nan b = false →
  float_lt a b = Ok false → float_lt b c = Ok false → float_lt a c = Ok false.
Proof.
  unfold float_lt. intros Hb [= H1] [= H2]. by rewrite (ltb_negtrans a b c).
Qed.

Lemma mapM_result_total {A B} (f : A → result B) (l : list A) :
  Forall (fun x => is_ok (f x) = true) l → ∃ ys, mapM f l = Ok ys.
Proof.
  induction 1 as [|x l Hx _ [ys IH]]; simpl; [by eauto|].
  destruct (f x) as [y|]; [|done]. simpl. rewrite IH. simpl. by eauto.
Qed.

Lemma zip_keys {A B} (f : A → result B) (l : list A) (ks : list B) :
  Forall2 (fun x k => f x = Ok k) l ks →
  Forall (fun p => f (snd p) = Ok (fst p)) (zip ks l).
Proof. induction 1; simpl; by constructor. Qed.

Section SortByDistanceFacts.

Variable geodesic_meters : float * float → float * float → result float.

#[local] Abbreviation distance_to := (distance_to geodesic_meters).
#[local] Abbreviation sort_by_distance := (sort_by_distance geodesic_meters).

(** The keys and the sorted pairs behind a result of [sort_by_distance]. *)
Lemma sort_by_distance_Ok_inv locations origin out :
  sort_by_distance locations origin = Ok out →
  ∃ keys keyed,
    Forall2 (fun loc k => distance_to loc origin = Ok k) locations keys ∧
    sorted float_lt fst false (zip keys locations) = Ok keyed ∧
    out = map snd keyed.
Proof.
  unfold sort_by_distance. intros H.
  apply bind_is_Ok in H as (keys & Hkeys & H).
  apply bind_is_Ok in H as (keyed & Hkeyed & [= <-]).
  exists keys, keyed. split; [by apply mapM_result_Ok | done].
Qed.

(** X14. [sort_by_distance] returns exactly when [distance_to] the origin
    returns for every location of the list, also of a list of one location;
    what it returns has the locations of the input, each as many times as
    the input has it. *)
Theorem sort_by_distance_returns_iff (locations : list Location)
    (origin : Location) :
  ((∃ out, sort_by_distance locations origin = Ok out) ↔
   Forall (fun loc => is_ok (distance_to loc origin) = true) locations) ∧
  (∀ out, sort_by_distance locations origin = Ok out → out ≡ₚ locations).
Proof.
  split; [split|].
  - intros [out Hout].
    apply sort_by_distance_Ok_inv in Hout as (keys & _ & Hkeys & _).
    induction Hkeys as [|loc k l ks Hk _ IH]; constructor; [|done].
    by rewrite Hk.
  - intros Hall. unfold sort_by_distance.
    destruct (mapM_result_total _ _ Hall) as [keys ->]. simpl.
    destruct (sorted_total float_lt (fun _ => True) float_lt_total
                fst false (zip keys locations)) as [keyed ->];
      [by apply Forall_true | simpl; by eauto].
  - intros out Hout.
    apply sort_by_distance_Ok_inv in Hout as (keys & keyed & Hkeys & Hkeyed & ->).
    apply sorted_perm in Hkeyed. rewrite (Permutation_map snd Hkeyed).
    change (map snd (zip keys locations)) with ((zip keys locations).*2).
    rewrite snd_zip; [done|]. by rewrite (Forall2_length _ _ _ Hkeys).
Qed.

(** X15. When no distance to the origin is NaN, [sort_by_distance] returns
    the locations in ascending order of their distance to the origin: no
    location comes before one that is nearer. *)
Theorem sort_by_distance_ascending (locations : list Location)
    (origin : Location) (out : list Location) :
  sort_by_distance locations origin = Ok out →
  Forall (fun loc => ∀ x, distance_to loc origin = Ok x →
                          PrimFloat.is_nan x = false) locations →
  ∀ i j a b x y,
    i < j → out !! i = Some a → out !! j = Some b →
    distance_to a origin = Ok x → distance_to b origin = Ok y →
    PrimFloat.ltb y x = false.
Proof.
  intros Hout Hnan i j a b x y Hij Ha Hb Hx Hy.
  apply sort_by_distance_Ok_inv in Hout as (keys & keyed & Hkeys & Hkeyed & ->).
  pose proof (zip_keys _ _ _ Hkeys) as Hzip.
  assert (Forall (fun p : float * Location => PrimFloat.is_nan (fst p) = false)
            (zip keys locations)) as Hgood.
  { clear -Hkeys Hnan. induction Hkeys as [|loc k l ks Hk _ IH]; simpl;
      [constructor|].
    apply Forall_cons in Hnan as [Hloc Hl]. constructor; [by apply Hloc | auto]. }
  pose proof (sorted_order float_lt (fun k => PrimFloat.is_nan k = false)
                float_lt_asym float_lt_negtrans fst false _ keyed Hgood Hkeyed)
    as Hsorted.
  apply sorted_perm in Hkeyed. rewrite <- Hkeyed in Hzip.
  rewrite Forall_forall in Hzip.
  change (map snd keyed) with (snd <$> keyed) in Ha, Hb.
  apply list_lookup_fmap_Some in Ha as (p & -> & Hp).
  apply list_lookup_fmap_Some in Hb as (q & -> & Hq).
  pose proof (Hzip p (list_elem_of_lookup_2 _ _ _ Hp)) as Hpx.
  pose proof (Hzip q (list_elem_of_lookup_2 _ _ _ Hq)) as Hqy.
  rewrite Hx in Hpx. rewrite Hy in Hqy. injection Hpx as Hpx. injection Hqy as Hqy.
  pose proof (StronglySorted_lookup _ keyed i j p q Hsorted Hij Hp Hq) as Hpq.
  simpl in Hpq. unfold float_lt in Hpq. rewrite <- Hpx, <- Hqy in Hpq.
  by injection Hpq.
Qed.

End SortByDistanceFacts.

Lemma sort_by_distance_returns_iff_witness :
  ∃ out,
    sort_by_distance Samples.grid_meters
      [Samples.loc_C; Samples.loc_B] Samples.loc_A = Ok out ∧
    out ≡ₚ [Samples.loc_C; Samples.loc_B].
Proof.
  destruct (sort_by_distance_returns_iff Samples.grid_meters
              [Samples.loc_C; Samples.loc_B] Samples.loc_A) as [Hiff Hperm].
  destruct (proj2 Hiff) as [out Hout].
  { repeat constructor. }
  exists out. split; [exact Hout | exact (Hperm out Hout)].
Defined.

Lemma sort_by_distance_ascending_witness :
  PrimFloat.ltb 200 50 = false.
Proof.
  apply (sort_by_distance_ascending Samples.grid_meters
           [Samples.loc_C; Samples.loc_B] Samples.loc_A
           [Samples.loc_B; Samples.loc_C]
           ltac:(vm_compute; reflexivity)) with
    (i := 0) (j := 1) (a := Samples.loc_B) (b := Samples.loc_C).
  - repeat constructor; intros x [= <-]; vm_compute; reflexivity.
  - lia.
  - reflexivity.
  - reflexivity.
  - vm_compute. reflexivity.
  - vm_compute. reflexivity.
Defined.
